(** * Ingredient extraction from recovered PDF text (script.py)

    A shallow embedding of [script.py]: Python strings are lists of Unicode
    code points, the regular expressions of the script are values of a small
    pattern type interpreted by a backtracking matcher that follows the
    leftmost, greedy-first search of Python's [re] module, and the calls to
    the PDF decoder, the rasterizer and the OCR engine go through a record of
    services and are written to a call log. *)

From Stdlib Require Import String Ascii.
From Stdlib Require Import List ListSet NArith Bool Arith Lia.
From Stdlib Require Import Permutation Sorted.
Import ListNotations.

(** ** Python strings *)

Definition char := N.
Definition pystr := list char.

Definition NL : char := 10%N.
Definition SP : char := 32%N.

(** A string constant of the script.  The two-character escapes [\n], [\t]
    and [\r] stand for the control characters, as in a Python literal; every
    other byte is an ASCII character.  Characters outside ASCII are written
    as code points where they occur. *)
Fixpoint py (s : string) : pystr :=
  match s with
  | EmptyString => []
  | String "\"%char (String "n"%char r) => NL :: py r
  | String "\"%char (String "t"%char r) => 9%N :: py r
  | String "\"%char (String "r"%char r) => 13%N :: py r
  | String a r => N_of_ascii a :: py r
  end.

(** [bool(s)] of a [str]. *)
Definition truthy (s : pystr) : bool :=
  match s with [] => false | _ :: _ => true end.

Module Unicode.

(** [Py_UNICODE_ISSPACE]: the characters [str.strip()] removes and
    [\s] matches in a [str] pattern. *)
Definition is_space (c : char) : bool :=
  ((9 <=? c) && (c <=? 13) || (28 <=? c) && (c <=? 32)
   || (c =? 133) || (c =? 160) || (c =? 5760)
   || (8192 <=? c) && (c <=? 8202)
   || (c =? 8232) || (c =? 8233) || (c =? 8239) || (c =? 8287)
   || (c =? 12288))%N.

(** Line boundaries of [str.splitlines()]. *)
Definition is_linebreak (c : char) : bool :=
  ((10 <=? c) && (c <=? 13) || (28 <=? c) && (c <=? 30)
   || (c =? 133) || (c =? 8232) || (c =? 8233))%N.

(** [str.isalnum] on U+0000..U+00FF. *)
Definition latin1_alnum (c : char) : bool :=
  ((48 <=? c) && (c <=? 57) || (65 <=? c) && (c <=? 90)
   || (97 <=? c) && (c <=? 122)
   || (c =? 170) || (178 <=? c) && (c <=? 179) || (c =? 181)
   || (185 <=? c) && (c <=? 186) || (188 <=? c) && (c <=? 190)
   || (192 <=? c) && (c <=? 214) || (216 <=? c) && (c <=? 246)
   || (248 <=? c) && (c <=? 255))%N.

Definition latin1_decimal (c : char) : bool :=
  ((48 <=? c) && (c <=? 57))%N.

(** Simple lower-case mapping on U+0000..U+00FF. *)
Definition latin1_lower (c : char) : char :=
  (if (65 <=? c) && (c <=? 90)
      || (192 <=? c) && (c <=? 214) || (216 <=? c) && (c <=? 222)
   then c + 32 else c)%N.

(** Characters of U+0000..U+00FF that have a case variant. *)
Definition latin1_cased (c : char) : bool :=
  ((65 <=? c) && (c <=? 90) || (97 <=? c) && (c <=? 122) || (c =? 181)
   || (192 <=? c) && (c <=? 214) || (216 <=? c) && (c <=? 246)
   || (248 <=? c) && (c <=? 255))%N.

(** The part of Python's Unicode database above U+00FF is not part of the
    script; it is a parameter of the model. [ci_hi p c] says whether the
    text character [c] (above U+00FF) matches the cased pattern character
    [p] when case is ignored (U+212A matches [k], U+017F matches [s]). *)
Record tables := {
  alnum_hi : char -> bool;
  decimal_hi : char -> bool;
  ci_hi : char -> char -> bool
}.

(** The database cut down to Latin-1: nothing above U+00FF is a word
    character, a digit or a case variant. *)
Definition latin1_only : tables :=
  {| alnum_hi := fun _ => false;
     decimal_hi := fun _ => false;
     ci_hi := fun _ _ => false |}.

Definition is_alnum (U : tables) (c : char) : bool :=
  if (c <? 256)%N then latin1_alnum c else alnum_hi U c.

(** [\w]: alphanumeric or underscore. *)
Definition is_word (U : tables) (c : char) : bool :=
  is_alnum U c || (c =? 95)%N.

(** [\d]. *)
Definition is_decimal (U : tables) (c : char) : bool :=
  if (c <? 256)%N then latin1_decimal c else decimal_hi U c.

(** A literal pattern character [p] against the text character [c].
    An uncased literal is compared exactly, whatever the flags. The
    literals of the script are all below U+0100. *)
Definition lit_match (U : tables) (ignorecase : bool) (p c : char) : bool :=
  (c =? p)%N
  || ignorecase && latin1_cased p
     && (if (c <? 256)%N then (latin1_lower c =? latin1_lower p)%N
         else ci_hi U p c).

End Unicode.

Abbreviation L1 := Unicode.latin1_only.

(** ** String methods *)

Fixpoint lstrip (drop : char -> bool) (s : pystr) : pystr :=
  match s with
  | [] => []
  | c :: r => if drop c then lstrip drop r else s
  end.

Definition rstrip (drop : char -> bool) (s : pystr) : pystr :=
  rev (lstrip drop (rev s)).

Definition strip_by (drop : char -> bool) (s : pystr) : pystr :=
  rstrip drop (lstrip drop s).

Definition mem_char (cs : pystr) (c : char) : bool :=
  existsb (N.eqb c) cs.

(** [s.strip()] *)
Definition strip (s : pystr) : pystr := strip_by Unicode.is_space s.

(** [s.strip(chars)] *)
Definition strip_chars (chars s : pystr) : pystr := strip_by (mem_char chars) s.

(** [sep.join(parts)] *)
Fixpoint join (sep : pystr) (parts : list pystr) : pystr :=
  match parts with
  | [] => []
  | [x] => x
  | x :: rest => x ++ sep ++ join sep rest
  end.

(** [s.splitlines()]: [cur] holds the characters of the line being read, in
    reverse; [\r\n] is one boundary; a last line without a boundary is kept,
    an empty one is not. *)
Fixpoint splitlines_go (cur : pystr) (s : pystr) : list pystr :=
  match s with
  | [] => match cur with [] => [] | _ => [rev cur] end
  | c :: r =>
      if Unicode.is_linebreak c then
        rev cur ::
          match r with
          | d :: r' =>
              if (c =? 13)%N && (d =? 10)%N then splitlines_go [] r'
              else splitlines_go [] r
          | [] => []
          end
      else splitlines_go (c :: cur) r
  end.

Definition splitlines (s : pystr) : list pystr := splitlines_go [] s.

(** ** Regular expressions

    The patterns of the script are sequences of single-character classes,
    bounded or unbounded greedy repeats of such a class, the anchors [^] and
    [\b], and at most one capturing group; none has an alternation. *)

Module Re.

Inductive cls :=
| Lit (c : char)            (* a literal character *)
| OneOf (cs : list char)    (* [...] *)
| Space                     (* \s *)
| Digit                     (* \d *)
| Any.                      (* . *)

Inductive atom :=
| Chr (k : cls)                               (* one character *)
| Rep (k : cls) (lo : nat) (hi : option nat)  (* k{lo,hi}, greedy *)
| Bol                                         (* ^ *)
| WordB                                       (* \b *)
| GOpen                                       (* ( *)
| GClose.                                     (* ) *)

Definition regex := list atom.

Definition star k := Rep k 0 None.
Definition plus k := Rep k 1 None.
Definition opt k := Rep k 0 (Some 1).

(** The literal text [s], one [Chr (Lit _)] per character; an escaped
    metacharacter of the source pattern, such as [\.] or [\(], is the
    character itself. *)
Definition lits (s : string) : regex := map (fun c => Chr (Lit c)) (py s).

Record flags := { IGNORECASE : bool; DOTALL : bool }.

Definition no_flags := {| IGNORECASE := false; DOTALL := false |}.
Definition ICASE := {| IGNORECASE := true; DOTALL := false |}.
Definition ICASE_DOTALL := {| IGNORECASE := true; DOTALL := true |}.

(** A match object: [m.start()], [m.end()] and the span of group 1. *)
Record Match := {
  m_start : nat;
  m_end : nat;
  m_span1 : nat * nat
}.

Definition can_take (hi : option nat) : bool :=
  match hi with Some 0 => false | _ => true end.

Section Matcher.

Variable U : Unicode.tables.
Variable fl : flags.

Definition cls_ok (k : cls) (c : char) : bool :=
  match k with
  | Lit p => Unicode.lit_match U (IGNORECASE fl) p c
  | OneOf cs => existsb (fun p => Unicode.lit_match U (IGNORECASE fl) p c) cs
  | Space => Unicode.is_space c
  | Digit => Unicode.is_decimal U c
  | Any => DOTALL fl || negb (c =? NL)%N
  end.

(** [\b] between the character before the position and the one at it. *)
Definition boundary (prev : option char) (s : pystr) : bool :=
  let that := match prev with Some c => Unicode.is_word U c | None => false end in
  let this := match s with c :: _ => Unicode.is_word U c | [] => false end in
  xorb that this.

Section Repeat.
Variable R : Type.
Variable ok : char -> bool.
Variable cont : option char -> pystr -> nat -> option R.

(** A greedy repeat: take one more character while the class and the
    upper bound allow it; when what follows fails, give the character
    back and try with one fewer, down to the lower bound. *)
Fixpoint rep_greedy (lo : nat) (hi : option nat)
    (prev : option char) (s : pystr) (pos : nat) : option R :=
  match s with
  | c :: s' =>
      if ok c && can_take hi then
        match rep_greedy (pred lo) (option_map pred hi) (Some c) s' (S pos) with
        | Some r => Some r
        | None => if lo =? 0 then cont prev s pos else None
        end
      else if lo =? 0 then cont prev s pos else None
  | [] => if lo =? 0 then cont prev s pos else None
  end.
End Repeat.

Arguments rep_greedy {R} ok cont lo hi prev s pos.

(** Match the atoms [p] at position [pos], where [s] is the text from
    [pos] on and [prev] the character before it. [g] is the span of
    group 1 so far. A match that ends before [floor] is refused: this is
    how [re.sub] asks for progress after an empty match; [floor] is 0
    for [re.search] and [re.match]. *)
Fixpoint m_atoms (floor : nat) (p : regex) (g : nat * nat)
    (prev : option char) (s : pystr) (pos : nat) : option (nat * (nat * nat)) :=
  match p with
  | [] => if floor <=? pos then Some (pos, g) else None
  | Chr k :: p' =>
      match s with
      | c :: s' => if cls_ok k c then m_atoms floor p' g (Some c) s' (S pos) else None
      | [] => None
      end
  | Rep k lo hi :: p' =>
      rep_greedy (cls_ok k) (m_atoms floor p' g) lo hi prev s pos
  | Bol :: p' =>
      match prev with
      | None => m_atoms floor p' g prev s pos
      | Some _ => None
      end
  | WordB :: p' =>
      if boundary prev s then m_atoms floor p' g prev s pos else None
  | GOpen :: p' => m_atoms floor p' (pos, snd g) prev s pos
  | GClose :: p' => m_atoms floor p' (fst g, pos) prev s pos
  end.

(** The scan of [re.search]: the first start position, from the left,
    at which the pattern matches. *)
Fixpoint search_from (floor : nat) (p : regex)
    (prev : option char) (s : pystr) (pos : nat) : option Match :=
  match m_atoms floor p (0, 0) prev s pos with
  | Some (e, g) => Some {| m_start := pos; m_end := e; m_span1 := g |}
  | None =>
      match s with
      | [] => None
      | c :: s' => search_from floor p (Some c) s' (S pos)
      end
  end.

(** [re.search(p, text, flags)] *)
Definition search (p : regex) (text : pystr) : option Match :=
  search_from 0 p None text 0.

(** [re.match(p, text, flags)] *)
Definition match_ (p : regex) (text : pystr) : option Match :=
  match m_atoms 0 p (0, 0) None text 0 with
  | Some (e, g) => Some {| m_start := 0; m_end := e; m_span1 := g |}
  | None => None
  end.

(** [re.sub(p, repl, text, flags)] for a constant replacement. [prev]
    and [s] are the text at [pos], the position where the last match
    ended; [adv] is set after an empty match. Every round uses a
    character or clears [adv], so twice the length of the text is
    enough fuel. *)
Fixpoint sub_loop (fuel : nat) (p : regex) (repl : pystr) (adv : bool)
    (prev : option char) (s : pystr) (pos : nat) : pystr :=
  match fuel with
  | 0 => s
  | S fuel' =>
      match search_from (if adv then S pos else 0) p prev s pos with
      | None => s
      | Some m =>
          let b := m_start m - pos in
          let e := m_end m - pos in
          firstn b s ++ repl ++
            sub_loop fuel' p repl (m_end m =? m_start m)
              (match e with 0 => prev | S e' => nth_error s e' end)
              (skipn e s) (m_end m)
      end
  end.

Definition sub (p : regex) (repl text : pystr) : pystr :=
  sub_loop (2 * length text + 2) p repl false None text 0.

End Matcher.

Arguments rep_greedy {R} ok cont lo hi prev s pos.

(** [m.group(1)] *)
Definition group1 (m : Match) (text : pystr) : pystr :=
  firstn (snd (m_span1 m) - fst (m_span1 m)) (skipn (fst (m_span1 m)) text).

End Re.

Import Re.

(** The code point of an ASCII character. *)
Definition chr (a : ascii) : char := N_of_ascii a.

Definition is_some {A} (o : option A) : bool :=
  match o with Some _ => true | None => false end.

(** ** The services outside the script

    The PDF decoder, the rasterizer and the OCR engine, over a type of page
    images, and the calls that the script makes. *)

Record services (image : Type) := {
  (* [page.extract_text()] of every page of [PdfReader(path).pages] *)
  page_texts : pystr -> list (option pystr);
  (* [convert_from_path(path, **kwargs)] *)
  convert_from_path : pystr -> list (pystr * pystr) -> list image;
  (* [pytesseract.image_to_string(img)] *)
  image_to_string : image -> pystr
}.

Arguments page_texts {image} s path.
Arguments convert_from_path {image} s path kwargs.
Arguments image_to_string {image} s img.

Inductive call (image : Type) :=
| PdfReader (path : pystr)
| ConvertFromPath (path : pystr) (kwargs : list (pystr * pystr))
| ImageToString (img : image)
| InlineExtractor (text : pystr)
| TabularExtractor (text : pystr).

Arguments PdfReader {image} path.
Arguments ConvertFromPath {image} path kwargs.
Arguments ImageToString {image} img.
Arguments InlineExtractor {image} text.
Arguments TabularExtractor {image} text.

(** Two documents for the examples, with page images numbered from 0: a
    scanned label, whose text layer holds nine characters and whose only
    page reads as an ingredient statement, and a formulation sheet with a
    text layer of three pages, the second without text. *)
Definition scanned_label : services nat :=
  {| page_texts := fun _ => [Some (py "scan 0001")];
     convert_from_path := fun _ _ => [0];
     image_to_string := fun _ => py "Ingredients: Aqua, Glycerin." |}.

Definition text_sheet : services nat :=
  {| page_texts :=
       fun _ => [Some (py "Shampoo 250 ml"); None;
                 Some (py "Ingredients: Aqua, Sodium Chloride.")];
     convert_from_path := fun _ _ => [0];
     image_to_string := fun _ => py "not read" |}.

(** A scan of two empty pages: no text layer, and nothing for the OCR
    engine to read but line ends. *)
Definition blank_scan : services nat :=
  {| page_texts := fun _ => [None; Some (py " \n")];
     convert_from_path := fun _ _ => [0; 1];
     image_to_string := fun _ => py "\n" |}.

(** A formulation sheet whose text layer is a table of ingredients. *)
Definition table_sheet : services nat :=
  {| page_texts :=
       fun _ => [Some (py "Lista de ingredientes\nAqua\nSodium Chloride\nParfum.")];
     convert_from_path := fun _ _ => [0];
     image_to_string := fun _ => py "not read" |}.

(** [pathlib] decides, by the platform, what the name and the string of a
    path are; the batch runner takes both from it. *)
Record pathlib := {
  (* [Path(pdf).name] *)
  path_name : pystr -> pystr;
  (* [str(Path(pdf))] *)
  path_str : pystr -> pystr
}.

(** What a batch leaves behind: the lines it prints and the calls of its
    documents, in the order in which they happen. *)
Inductive event (image : Type) :=
| Printed (line : pystr)
| Called (c : call image).

Arguments Printed {image} line.
Arguments Called {image} c.

(** ** The script *)

Section Script.

Variable U : Unicode.tables.

(** *** Module-level tables *)

Definition STOP_MARKERS : list regex :=
  [ lits "\nmanufactured by";
    lits "\nmade in";
    lits "\nwarning";
    lits "\nwww.";
    lits "\nkeep out of reach";
    lits "\nuso t" ++ [Chr (OneOf [chr "o"; 243%N])] ++ lits "pico";
    lits "\nmodo de empleo";
    lits "\nmode d'emploi";
    lits "\nkey ingredients";
    lits "\ningredientes principales" ].

(** *** clean_ingredients_string *)

Definition clean_ingredients_string (s : pystr) : pystr :=
  let s := Re.sub U no_flags [plus Space] (py " ") s in
  strip_chars (py " \t\n\r;,.") s.

(** The stop-marker scan, written out twice in the script (over
    [STOP_MARKERS] in the inline extractor, over [stop_pats] in the
    tabular one): [cut_pos] starts at the length of the window and is
    lowered to the start of each marker's first match. *)
Definition cut_step (fl : flags) (after : pystr) (cut_pos : nat) (sm : regex) : nat :=
  match Re.search U fl sm after with
  | Some ms => if m_start ms <? cut_pos then m_start ms else cut_pos
  | None => cut_pos
  end.

Definition cut_position (fl : flags) (markers : list regex) (after : pystr) : nat :=
  fold_left (cut_step fl after) markers (length after).

(** *** extract_inline_ingredients *)

(** [\s*[:\-]\s*(.+)], the end of each label pattern. *)
Definition separator_and_rest : regex :=
  [star Space; Chr (OneOf [chr ":"; chr "-"]); star Space; GOpen; plus Any; GClose].

Definition patterns : list regex :=
  [ [WordB] ++ lits "ingredient" ++ [opt (Lit (chr "s")); WordB] ++ separator_and_rest;
    [WordB] ++ lits "ingredients/ingr" ++ [Chr (OneOf [233%N; chr "e"])]
      ++ lits "dients" ++ [WordB] ++ separator_and_rest;
    [WordB] ++ lits "ingredientes" ++ [WordB] ++ separator_and_rest;
    [WordB] ++ lits "ingredientes/ingredients" ++ [WordB] ++ separator_and_rest ].

Fixpoint inline_loop (pats : list regex) (text : pystr) : option pystr :=
  match pats with
  | [] => None
  | pat :: rest =>
      match Re.search U ICASE_DOTALL pat text with
      | None => inline_loop rest text
      | Some m =>
          let after := group1 m text in
          let cut_pos := cut_position ICASE STOP_MARKERS after in
          let ingredients := clean_ingredients_string (firstn cut_pos after) in
          if truthy ingredients then Some ingredients
          else inline_loop rest text
      end
  end.

Definition extract_inline_ingredients (text : pystr) : option pystr :=
  if negb (truthy text) then None
  else inline_loop patterns text.

(** *** _extract_name_from_line *)

(** [^\s*\d+[\.\-]?\s+] *)
Definition row_number_prefix : regex :=
  [Bol; star Space; plus Digit; opt (OneOf [chr "."; chr "-"]); plus Space].

(** [\s\d{2,7}-\d{2}-\d\b] *)
Definition cas_number : regex :=
  [Chr Space; Rep Digit 2 (Some 7); Chr (Lit (chr "-")); Rep Digit 2 (Some 2);
   Chr (Lit (chr "-")); Chr Digit; WordB].

(** [\s\d+[.,]\d+] *)
Definition decimal_quantity : regex :=
  [Chr Space; plus Digit; Chr (OneOf [chr "."; chr ","]); plus Digit].

(** [\sc\.s\.p\.] *)
Definition csp_marker : regex := Chr Space :: lits "c.s.p.".

Definition _extract_name_from_line (line : pystr) : option pystr :=
  if negb (truthy (strip line)) then None
  else
    let line := Re.sub U no_flags row_number_prefix [] line in
    match Re.search U no_flags cas_number line with
    | Some m => Some (strip (firstn (m_start m) line))
    | None =>
        match Re.search U no_flags decimal_quantity line with
        | Some m => Some (strip (firstn (m_start m) line))
        | None =>
            match Re.search U ICASE csp_marker line with
            | Some m => Some (strip (firstn (m_start m) line))
            | None => Some (strip line)
            end
        end
    end.

(** *** extract_table_ingredients

    The script also computes [lower_text = text.lower()] and never uses
    it. *)

Definition headers : list regex :=
  [ lits "INGREDIENTES/INGREDIENTS" ++ [star Space] ++ lits "(INCI)";
    lits "INGREDIENTE" ++ [plus Space] ++ lits "INCI";
    lits "Lista de ingredientes";
    lits "No." ++ [star Space] ++ lits "INCI name" ++ [star Space] ++ lits "CAS No." ].

Definition stop_pats : list regex :=
  [ lits "\nTotal" ++ [WordB];
    lits "\nTotal %";
    lits "\nRangos de concentraci" ++ [Chr (Lit 243%N)] ++ lits "n";
    lits "\nREGULACI" ++ [Chr (OneOf [211%N; chr "O"])] ++ lits "N COSMETICA";
    lits "\nAN" ++ [Chr (OneOf [193%N; chr "A"])] ++ lits "LISIS";
    lits "\n2." ++ [star Space] ++ lits "Fragrance/Perfume" ].

(** [^%?\s*INCI\b] *)
Definition inci_column_label : regex :=
  [Bol; opt (Lit (chr "%")); star Space] ++ lits "INCI" ++ [WordB].

(** One round of the loop over [block.splitlines()]. *)
Definition line_step (hpat : regex) (all_names : list pystr) (raw_line : pystr)
    : list pystr :=
  let line := strip raw_line in
  if negb (truthy line) then all_names
  else if is_some (Re.search U ICASE hpat line) then all_names
  else if is_some (Re.match_ U ICASE inci_column_label line) then all_names
  else
    match _extract_name_from_line line with
    | None => all_names
    | Some name =>
        if negb (truthy name) then all_names
        else if length name <? 3 then all_names
        else all_names ++ [name]
    end.

(** One round of the loop over [headers]. *)
Definition header_step (text : pystr) (all_names : list pystr) (hpat : regex)
    : list pystr :=
  match Re.search U ICASE hpat text with
  | None => all_names
  | Some m =>
      let start := m_end m in
      let block := skipn start text in
      let cut_pos := cut_position ICASE stop_pats block in
      let block := firstn cut_pos block in
      fold_left (line_step hpat) (splitlines block) all_names
  end.

Definition collect_names (text : pystr) : list pystr :=
  fold_left (header_step text) headers [].

Definition pystr_eq_dec : forall a b : pystr, {a = b} + {a <> b} :=
  list_eq_dec N.eq_dec.

(** One round of the loop that fills [seen] and [unique]. *)
Definition unique_step (st : ListSet.set pystr * list pystr) (n : pystr)
    : ListSet.set pystr * list pystr :=
  let (seen, unique) := st in
  if ListSet.set_mem pystr_eq_dec n seen then st
  else (ListSet.set_add pystr_eq_dec n seen, unique ++ [n]).

Definition dedup (all_names : list pystr) : list pystr :=
  snd (fold_left unique_step all_names (ListSet.empty_set pystr, [])).

Definition extract_table_ingredients (text : pystr) : option pystr :=
  if negb (truthy text) then None
  else
    let all_names := collect_names text in
    match all_names with
    | [] => None
    | _ :: _ => Some (join (py ", ") (dedup all_names))
    end.

(** *** Text recovery and the per-document policy

    The PDF decoder, the rasterizer and the OCR engine are outside the
    script. They are taken as functions, and every call the script makes
    to them, and to its two extractors, is appended to a call log, so
    that "is never invoked" is a statement about the log. A service that
    raises ends the run of the script; such runs are not modelled. *)

Variable image : Type.
Variable sv : services image.

(** Computations that append to the call log. *)
Definition M (A : Type) : Type := list (call image) -> A * list (call image).

Definition ret {A} (a : A) : M A := fun log => (a, log).

Definition bind {A B} (m : M A) (k : A -> M B) : M B :=
  fun log => let (a, log') := m log in k a log'.

Definition tell (c : call image) : M unit := fun log => (tt, log ++ [c]).

Notation "x <- m ;; k" := (bind m (fun x => k))
  (at level 61, m at next level, right associativity).
Notation "m ;;; k" := (bind m (fun _ => k))
  (at level 61, right associativity).

Fixpoint for_each {A B} (f : A -> M B) (l : list A) : M (list B) :=
  match l with
  | [] => ret []
  | a :: r => b <- f a ;; bs <- for_each f r ;; ret (b :: bs)
  end.

(** [x or ""] for the text of a page. *)
Definition or_empty (x : option pystr) : pystr :=
  match x with
  | Some t => t
  | None => []
  end.

Definition POPLER_PATH : pystr :=
  py "C:\Program Files\poppler-25.11.0\Library\bin".

Definition extract_text_from_pdf (path : pystr) : M pystr :=
  tell (PdfReader path) ;;;
  let pages_text := map or_empty (page_texts sv path) in
  ret (strip (join (py "\n") pages_text)).

Definition extract_text_with_ocr (path : pystr) : M pystr :=
  let kwargs :=
    if truthy POPLER_PATH then [(py "poppler_path", POPLER_PATH)] else [] in
  tell (ConvertFromPath path kwargs) ;;;
  let images := convert_from_path sv path kwargs in
  text_chunks <-
    for_each (fun img => tell (ImageToString img) ;;; ret (image_to_string sv img))
             images ;;
  ret (strip (join (py "\n") text_chunks)).

(** [if ingredients:] for a value that is a string or [None]. *)
Definition found (r : option pystr) : bool :=
  match r with
  | Some s => truthy s
  | None => false
  end.

Definition extract_ingredients_from_pdf (path : pystr) : M (option pystr) :=
  text <- extract_text_from_pdf path ;;
  text <- (if length text <? 40 then extract_text_with_ocr path else ret text) ;;
  tell (InlineExtractor text) ;;;
  let ingredients := extract_inline_ingredients text in
  if found ingredients then ret ingredients
  else
    tell (TabularExtractor text) ;;;
    let ingredients := extract_table_ingredients text in
    if found ingredients then ret ingredients
    else ret None.

(** *** build_ingredients_df

    One record per document, appended to [records] in the order of
    [pdf_paths]. The function ends with [pl.DataFrame(records)]; the model
    returns the records handed to it. The calls of a document are those of
    [extract_ingredients_from_pdf], taken in the order in which they are
    made. *)

Variable pl : pathlib.

Record row := {
  file_name : pystr;
  ingredients : option pystr
}.

Definition B (A : Type) : Type := list (event image) -> A * list (event image).

(** [print(line)] *)
Definition print (line : pystr) : B unit :=
  fun out => (tt, out ++ [Printed line]).

(** A computation of the orchestrator inside a batch. *)
Definition in_batch {A} (m : M A) : B A :=
  fun out => let (a, calls) := m [] in (a, out ++ map Called calls).

Fixpoint batch_loop (pdf_paths : list pystr) (records : list row) : B (list row) :=
  match pdf_paths with
  | [] => fun out => (records, out)
  | pdf :: rest =>
      fun out =>
        let (_, out1) := print (py "Procesando: " ++ path_name pl pdf) out in
        let (found_ingredients, out2) :=
          in_batch (extract_ingredients_from_pdf (path_str pl pdf)) out1 in
        batch_loop rest
          (records ++ [{| file_name := path_name pl pdf;
                          ingredients := found_ingredients |}])
          out2
  end.

Definition build_ingredients_df (pdf_paths : list pystr) : B (list row) :=
  batch_loop pdf_paths [].

(** *** Notions used to state the properties *)

(** The atom [a] takes at least one character of the class [k]. *)
Definition needs_class (k : cls) (a : atom) : Prop :=
  match a with
  | Chr k' => k' = k
  | Rep k' lo _ => k' = k /\ 1 <= lo
  | _ => False
  end.

(** [a] is a substring of [b]. *)
Definition infix (a b : pystr) : Prop := exists pre post, b = pre ++ a ++ post.

(** A string without line boundary. *)
Definition one_line (s : pystr) : bool :=
  forallb (fun c => negb (Unicode.is_linebreak c)) s.

(** A string of whitespace only. *)
Definition blank (s : pystr) : bool := forallb Unicode.is_space s.

(** The characters that the normalizer removes from both ends. *)
Definition boundary_char : char -> bool := mem_char (py " \t\n\r;,.").

(** The record of one document of a batch, and what the batch prints and
    calls for it. *)
Definition row_of (pdf : pystr) : row :=
  {| file_name := path_name pl pdf;
     ingredients := fst (extract_ingredients_from_pdf (path_str pl pdf) []) |}.

Definition events_of (pdf : pystr) : list (event image) :=
  Printed (py "Procesando: " ++ path_name pl pdf)
  :: map Called (snd (extract_ingredients_from_pdf (path_str pl pdf) [])).

(** What [re.sub(r"\s+", " ", s)] leaves: every run of whitespace becomes
    one space. [in_run] says that the previous character was whitespace. *)
Fixpoint squeeze (in_run : bool) (s : pystr) : pystr :=
  match s with
  | [] => []
  | c :: r =>
      if Unicode.is_space c then
        if in_run then squeeze true r else SP :: squeeze true r
      else c :: squeeze false r
  end.

(** A string in which whitespace is single spaces only, none of them
    next to another ([after_sp]: the character before is a space). *)
Fixpoint squeezed (after_sp : bool) (s : pystr) : bool :=
  match s with
  | [] => true
  | c :: r =>
      if Unicode.is_space c then (c =? SP)%N && negb after_sp && squeezed true r
      else squeezed false r
  end.

(** The number of characters a greedy repeat takes at most. *)
Fixpoint span (ok : char -> bool) (hi : option nat) (s : pystr) : nat :=
  match s with
  | c :: s' =>
      if ok c && can_take hi then S (span ok (option_map pred hi) s') else 0
  | [] => 0
  end.

(** The position of the first character that satisfies [ok]. *)
Fixpoint index_where (ok : char -> bool) (s : pystr) : option nat :=
  match s with
  | [] => None
  | c :: r => if ok c then Some 0 else option_map S (index_where ok r)
  end.

(** The character before position [n] of [s], [prev] before position 0. *)
Definition prev_at (prev : option char) (s : pystr) (n : nat) : option char :=
  match n with
  | 0 => prev
  | S n' => nth_error s n'
  end.

(** The match of [p] in [text] that starts at position [i], if there is
    one ([re.compile(p, flags).match(text, i)]). *)
Definition match_at (fl : flags) (p : regex) (text : pystr) (i : nat)
    : option (nat * (nat * nat)) :=
  m_atoms U fl 0 p (0, 0) (prev_at None text i) (skipn i text) i.

Definition matches_at (fl : flags) (p : regex) (text : pystr) (i : nat) : bool :=
  is_some (match_at fl p text i).

(** The last character of [s], if any. *)
Definition last_char (s : pystr) : option char := prev_at None s (length s).

(** [i] is the leftmost position of [text] at which [p] matches. *)
Definition leftmost (fl : flags) (p : regex) (text : pystr) (i : nat) : Prop :=
  i <= length text /\
  matches_at fl p text i = true /\
  forall j, j < i -> matches_at fl p text j = false.

(** [p] matches nowhere in [text]. *)
Definition no_match (fl : flags) (p : regex) (text : pystr) : Prop :=
  forall k, k <= length text -> matches_at fl p text k = false.

(** A name kept by the tabular extractor: at least three characters, no
    whitespace at either end. *)
Definition kept_name (n : pystr) : Prop := 3 <= length n /\ strip n = n.

(** The least number of characters a match of [p] has. *)
Fixpoint min_len (p : regex) : nat :=
  match p with
  | [] => 0
  | Chr _ :: p' => S (min_len p')
  | Rep _ lo _ :: p' => lo + min_len p'
  | _ :: p' => min_len p'
  end.

(** The row of a table line once [re.sub] has removed the row-number
    prefix: the pattern is anchored, so it is removed at most once. *)
Definition without_row_number (line : pystr) : pystr :=
  match match_at no_flags row_number_prefix line 0 with
  | Some (e, _) => skipn e line
  | None => line
  end.

(** The text recovery of a document, call by call. *)
Definition native_text (path : pystr) : pystr :=
  strip (join (py "\n") (map or_empty (page_texts sv path))).

Definition ocr_kwargs : list (pystr * pystr) := [(py "poppler_path", POPLER_PATH)].

Definition ocr_images (path : pystr) : list image :=
  convert_from_path sv path ocr_kwargs.

Definition ocr_text (path : pystr) : pystr :=
  strip (join (py "\n") (map (image_to_string sv) (ocr_images path))).

Definition ocr_calls (path : pystr) : list (call image) :=
  ConvertFromPath path ocr_kwargs :: map ImageToString (ocr_images path).

(** The result of the two extractors on a recovered text. *)
Definition first_found (text : pystr) : option pystr :=
  match extract_inline_ingredients text with
  | Some s => Some s
  | None => extract_table_ingredients text
  end.

Definition is_heuristic_call (c : call image) : bool :=
  match c with
  | InlineExtractor _ | TabularExtractor _ => true
  | _ => false
  end.

(** The position of the first occurrence of [x] in [l] ([length l] when
    there is none). *)
Fixpoint index_of (x : pystr) (l : list pystr) : nat :=
  match l with
  | [] => 0
  | y :: r => if pystr_eq_dec x y then 0 else S (index_of x r)
  end.

(** A position reached in a text: the character before it, the text from
    it on, and its number. *)
Record reach := {
  r_prev : option char;
  r_rest : pystr;
  r_pos : nat
}.

(** Every end of a greedy repeat followed by [cont], the longest run
    first: the order in which [rep_greedy] tries them. *)
Fixpoint rep_ends (ok : char -> bool)
    (cont : option char -> pystr -> nat -> list reach)
    (lo : nat) (hi : option nat) (prev : option char) (s : pystr) (pos : nat)
    : list reach :=
  match s with
  | c :: s' =>
      if ok c && can_take hi then
        rep_ends ok cont (pred lo) (option_map pred hi) (Some c) s' (S pos)
        ++ (if lo =? 0 then cont prev s pos else [])
      else if lo =? 0 then cont prev s pos else []
  | [] => if lo =? 0 then cont prev s pos else []
  end.

(** Every position at which a match of the atoms [p] that starts here can
    end, in the order in which [m_atoms] tries them. *)
Fixpoint ends (fl : flags) (p : regex) (prev : option char) (s : pystr) (pos : nat)
    : list reach :=
  match p with
  | [] => [{| r_prev := prev; r_rest := s; r_pos := pos |}]
  | Chr k :: p' =>
      match s with
      | c :: s' => if cls_ok U fl k c then ends fl p' (Some c) s' (S pos) else []
      | [] => []
      end
  | Rep k lo hi :: p' => rep_ends (cls_ok U fl k) (ends fl p') lo hi prev s pos
  | Bol :: p' =>
      match prev with
      | None => ends fl p' prev s pos
      | Some _ => []
      end
  | WordB :: p' => if boundary U prev s then ends fl p' prev s pos else []
  | GOpen :: p' => ends fl p' prev s pos
  | GClose :: p' => ends fl p' prev s pos
  end.

(** The label of each pattern of [patterns]: the pattern without
    [separator_and_rest]. *)
Definition labels : list regex :=
  [ [WordB] ++ lits "ingredient" ++ [opt (Lit (chr "s")); WordB];
    [WordB] ++ lits "ingredients/ingr" ++ [Chr (OneOf [233%N; chr "e"])]
      ++ lits "dients" ++ [WordB];
    [WordB] ++ lits "ingredientes" ++ [WordB];
    [WordB] ++ lits "ingredientes/ingredients" ++ [WordB] ].

(** The ends of the occurrences of the label [l] that start at position
    [i] of [text]. *)
Definition label_ends (l : regex) (text : pystr) (i : nat) : list reach :=
  ends ICASE_DOTALL l (prev_at None text i) (skipn i text) i.

(** After optional whitespace, the text [rest] goes on with a colon or a
    hyphen. *)
Definition separator_first (rest : pystr) : bool :=
  match lstrip Unicode.is_space rest with
  | c :: _ => ((c =? chr ":") || (c =? chr "-"))%N
  | [] => false
  end.

(** At position [i] of [text] starts a label that is followed, after
    optional whitespace, by a colon or a hyphen. *)
Definition separated_label_at (text : pystr) (i : nat) : bool :=
  existsb (fun l => existsb (fun st => separator_first (r_rest st))
                            (label_ends l text i))
          labels.

(** The text that the orchestrator hands to its extractors, and the calls
    it makes to have it. *)
Definition recovered_text (path : pystr) : pystr :=
  if length (native_text path) <? 40 then ocr_text path else native_text path.

Definition recovery_calls (path : pystr) : list (call image) :=
  PdfReader path :: (if length (native_text path) <? 40 then ocr_calls path else []).

(** What the pattern [pat] yields on [text]: its candidate window, cut at
    the stop-marker scan's position and normalized. *)
Definition cut_window (pat : regex) (text : pystr) : option pystr :=
  match Re.search U ICASE_DOTALL pat text with
  | Some m =>
      let after := group1 m text in
      Some (clean_ingredients_string
              (firstn (cut_position ICASE STOP_MARKERS after) after))
  | None => None
  end.

(** ** Properties of the string methods *)

Lemma lstrip_idem d s : lstrip d (lstrip d s) = lstrip d s.
Proof.
  induction s as [|c r IH]; simpl; auto.
  destruct (d c) eqn:E; auto.
  simpl. now rewrite E.
Qed.

Lemma lstrip_app d a b :
  lstrip d (a ++ b) =
  match lstrip d a with
  | [] => lstrip d b
  | t => t ++ b
  end.
Proof.
  induction a as [|c r IH]; simpl; auto.
  destruct (d c); auto.
Qed.

Lemma lstrip_head d s c r : lstrip d s = c :: r -> d c = false.
Proof.
  induction s as [|a s IH]; simpl; try discriminate.
  destruct (d a) eqn:E; auto.
  intros H. injection H as -> _. exact E.
Qed.

Lemma lstrip_fix d c r : d c = false -> lstrip d (c :: r) = c :: r.
Proof. intros H. simpl. now rewrite H. Qed.

Lemma rstrip_cons d c r :
  rstrip d (c :: r) =
  match rstrip d r with
  | [] => if d c then [] else [c]
  | t => c :: t
  end.
Proof.
  unfold rstrip. simpl. rewrite lstrip_app.
  destruct (lstrip d (rev r)) as [|x t] eqn:E; simpl.
  - destruct (d c); reflexivity.
  - rewrite rev_app_distr. simpl.
    destruct (rev t ++ [x]) eqn:E2; auto.
    destruct (rev t); discriminate.
Qed.

Lemma rstrip_idem d s : rstrip d (rstrip d s) = rstrip d s.
Proof. unfold rstrip. now rewrite rev_involutive, lstrip_idem. Qed.

Lemma lstrip_rstrip_fix d u :
  lstrip d u = u -> lstrip d (rstrip d u) = rstrip d u.
Proof.
  destruct u as [|c r]; auto.
  intros H.
  assert (Hc : d c = false) by (eapply lstrip_head; exact H).
  rewrite rstrip_cons.
  destruct (rstrip d r).
  - rewrite Hc. now apply lstrip_fix.
  - now apply lstrip_fix.
Qed.

Lemma strip_by_idem d s : strip_by d (strip_by d s) = strip_by d s.
Proof.
  unfold strip_by.
  rewrite (lstrip_rstrip_fix d (lstrip d s)) by apply lstrip_idem.
  apply rstrip_idem.
Qed.

(** ** Properties of [squeeze] *)

Lemma squeezed_weaken s : squeezed true s = true -> squeezed false s = true.
Proof.
  destruct s as [|c r]; simpl; auto.
  destruct (Unicode.is_space c); auto.
  rewrite andb_false_r. discriminate.
Qed.

Lemma squeezed_tail b c r : squeezed b (c :: r) = true -> squeezed false r = true.
Proof.
  simpl. destruct (Unicode.is_space c); auto.
  intros H. apply andb_true_iff in H as [_ H]. now apply squeezed_weaken.
Qed.

Lemma squeeze_squeezed b s : squeezed b (squeeze b s) = true.
Proof.
  revert b. induction s as [|c r IH]; intros b; simpl; auto.
  destruct (Unicode.is_space c) eqn:E.
  - destruct b; auto.
    simpl. change (Unicode.is_space SP) with true. simpl. apply IH.
  - simpl. rewrite E. apply IH.
Qed.

Lemma squeezed_fix b s : squeezed b s = true -> squeeze b s = s.
Proof.
  revert b. induction s as [|c r IH]; intros b; simpl; auto.
  destruct (Unicode.is_space c) eqn:E.
  - intros H. apply andb_true_iff in H as [H Hr].
    apply andb_true_iff in H as [Hc Hb].
    apply N.eqb_eq in Hc. destruct b; try discriminate.
    rewrite (IH true Hr). now subst c.
  - intros H. now rewrite (IH false H).
Qed.

Lemma squeezed_lstrip d s : squeezed false s = true -> squeezed false (lstrip d s) = true.
Proof.
  induction s as [|c r IH]; simpl; auto.
  intros H. destruct (d c); auto.
  apply IH. now apply (squeezed_tail false c r).
Qed.

Lemma squeezed_rstrip d b s : squeezed b s = true -> squeezed b (rstrip d s) = true.
Proof.
  revert b. induction s as [|c r IH]; intros b H; auto.
  rewrite rstrip_cons.
  simpl in H.
  destruct (rstrip d r) as [|x t] eqn:E.
  - destruct (d c); auto. simpl.
    destruct (Unicode.is_space c); auto.
    apply andb_true_iff in H as [H _]. rewrite H. reflexivity.
  - change (squeezed b (c :: x :: t) = true). simpl squeezed at 1.
    destruct (Unicode.is_space c).
    + apply andb_true_iff in H as [H Hr]. rewrite H. apply (IH true Hr).
    + apply (IH false H).
Qed.

Lemma squeezed_strip_by d s : squeezed false s = true -> squeezed false (strip_by d s) = true.
Proof.
  intros H. unfold strip_by. now apply squeezed_rstrip, squeezed_lstrip.
Qed.

Lemma squeeze_skip_run r :
  squeeze true r = squeeze false (skipn (span Unicode.is_space None r) r).
Proof.
  induction r as [|c r IH]; simpl; auto.
  destruct (Unicode.is_space c) eqn:E; simpl; auto.
  now rewrite E.
Qed.

Lemma squeeze_no_space s :
  index_where Unicode.is_space s = None -> squeeze false s = s.
Proof.
  induction s as [|c r IH]; simpl; auto.
  destruct (Unicode.is_space c); try discriminate.
  destruct (index_where Unicode.is_space r); try discriminate.
  intros _. now rewrite IH.
Qed.

Lemma squeeze_first_space s a :
  index_where Unicode.is_space s = Some a ->
  squeeze false s =
  firstn a s ++ SP :: squeeze false (skipn (a + span Unicode.is_space None (skipn a s)) s).
Proof.
  revert a. induction s as [|c r IH]; simpl; try discriminate.
  intros a. destruct (Unicode.is_space c) eqn:E.
  - intros H. injection H as <-. simpl. rewrite E. simpl.
    now rewrite squeeze_skip_run.
  - destruct (index_where Unicode.is_space r) as [a'|]; try discriminate.
    intros H. injection H as <-. simpl. now rewrite (IH a' eq_refl).
Qed.

(** ** Properties of the matcher *)

Lemma prev_at_cons prev c s n : prev_at prev (c :: s) (S n) = prev_at (Some c) s n.
Proof. destruct n; reflexivity. Qed.

Section RepeatFacts.

Context {R : Type}.
Variable ok : char -> bool.
Variable cont : option char -> pystr -> nat -> option R.

(** The first try of a greedy repeat takes the whole run; when what
    follows matches there, that is the result. *)
Lemma rep_greedy_max lo hi prev s pos r :
  lo <= span ok hi s ->
  cont (prev_at prev s (span ok hi s)) (skipn (span ok hi s) s)
       (pos + span ok hi s) = Some r ->
  rep_greedy ok cont lo hi prev s pos = Some r.
Proof.
  revert lo hi prev pos.
  induction s as [|c s' IH]; intros lo hi prev pos Hlo Hc; simpl in *.
  - assert (lo = 0) by lia. subst lo. simpl.
    now rewrite Nat.add_0_r in Hc.
  - destruct (ok c && can_take hi) eqn:E.
    + rewrite (IH (pred lo) (option_map pred hi) (Some c) (S pos)).
      * reflexivity.
      * lia.
      * rewrite <- prev_at_cons with (prev := prev).
        now rewrite Nat.add_succ_r in Hc.
    + assert (lo = 0) by lia. subst lo. simpl.
      now rewrite Nat.add_0_r in Hc.
Qed.

(** A run shorter than the lower bound does not match. *)
Lemma rep_greedy_short lo hi prev s pos :
  span ok hi s < lo -> rep_greedy ok cont lo hi prev s pos = None.
Proof.
  revert lo hi prev pos.
  induction s as [|c s' IH]; intros lo hi prev pos Hlo; simpl in *.
  - destruct lo; [lia | reflexivity].
  - destruct (ok c && can_take hi) eqn:E.
    + rewrite IH by lia. destruct lo; [lia | reflexivity].
    + destruct lo; [lia | reflexivity].
Qed.

(** A repeat fails when what follows fails on every rest of the text
    that has a property kept by dropping the first character. *)
Lemma rep_greedy_none (Q : pystr -> Prop) lo hi prev s pos :
  (forall c r, Q (c :: r) -> Q r) ->
  (forall prev' s' pos', Q s' -> cont prev' s' pos' = None) ->
  Q s -> rep_greedy ok cont lo hi prev s pos = None.
Proof.
  intros Htl Hcont. revert lo hi prev pos.
  induction s as [|c s' IH]; intros lo hi prev pos HQ; simpl.
  - rewrite Hcont by assumption. now destruct (lo =? 0).
  - rewrite IH by (eapply Htl; eassumption).
    rewrite Hcont by assumption.
    destruct (ok c && can_take hi); now destruct (lo =? 0).
Qed.

End RepeatFacts.

Lemma rep_greedy_is_some {R1 R2 : Type} ok
    (c1 : option char -> pystr -> nat -> option R1)
    (c2 : option char -> pystr -> nat -> option R2) lo hi prev s pos pos' :
  (forall prev s pos pos', is_some (c1 prev s pos) = is_some (c2 prev s pos')) ->
  is_some (rep_greedy ok c1 lo hi prev s pos)
  = is_some (rep_greedy ok c2 lo hi prev s pos').
Proof.
  intros H. revert lo hi prev pos pos'.
  induction s as [|c s' IH]; intros lo hi prev pos pos'; simpl.
  - destruct (lo =? 0); auto.
  - destruct (ok c && can_take hi).
    + specialize (IH (pred lo) (option_map pred hi) (Some c) (S pos) (S pos')).
      destruct (rep_greedy ok c1 _ _ _ s' _), (rep_greedy ok c2 _ _ _ s' _);
        simpl in IH; try discriminate; auto.
      destruct (lo =? 0); auto.
    + destruct (lo =? 0); auto.
Qed.

Section MatcherFacts.

Variable fl : flags.

(** Whether a pattern matches at a position does not depend on the
    position's number or on the group span carried so far. *)
Lemma m_atoms_is_some p g g' prev s pos pos' :
  is_some (m_atoms U fl 0 p g prev s pos)
  = is_some (m_atoms U fl 0 p g' prev s pos').
Proof.
  revert g g' prev s pos pos'.
  induction p as [|a p IH]; intros g g' prev s pos pos'; simpl; auto.
  destruct a.
  - destruct s as [|c s]; auto. destruct (cls_ok U fl k c); auto.
  - apply rep_greedy_is_some. intros. apply IH.
  - destruct prev; auto.
  - destruct (boundary U prev s); auto.
  - apply IH.
  - apply IH.
Qed.

(** A pattern with a one-character atom that no character of the text
    satisfies does not match. *)
Lemma m_atoms_needs_char floor k p g prev s pos :
  In (Chr k) p ->
  Forall (fun c => cls_ok U fl k c = false) s ->
  m_atoms U fl floor p g prev s pos = None.
Proof.
  intros Hin. revert g prev s pos.
  induction p as [|a p IH]; intros g prev s pos Hs; [destruct Hin|].
  destruct Hin as [->|Hin].
  - simpl. destruct s as [|c s]; auto.
    inversion Hs as [|? ? Hc ?]; subst. now rewrite Hc.
  - specialize (IH Hin). simpl. destruct a.
    + destruct s as [|c s]; auto.
      inversion Hs; subst. destruct (cls_ok U fl k0 c); auto.
    + apply rep_greedy_none
        with (Q := Forall (fun c => cls_ok U fl k c = false)); auto.
      intros c r H. now inversion H.
    + destruct prev; auto.
    + destruct (boundary U prev s); auto.
    + auto.
    + auto.
Qed.

Lemma search_from_needs_char floor k p prev s pos :
  In (Chr k) p ->
  Forall (fun c => cls_ok U fl k c = false) s ->
  search_from U fl floor p prev s pos = None.
Proof.
  intros Hin. revert prev pos.
  induction s as [|c s IH]; intros prev pos Hs; simpl;
    rewrite (m_atoms_needs_char floor k p _ _ _ _ Hin Hs); auto.
  inversion Hs; subst. auto.
Qed.

(** [search_from] returns the leftmost position at which the pattern
    matches, with the match found there. *)
Lemma search_from_some floor p prev s pos m :
  search_from U fl floor p prev s pos = Some m ->
  exists k,
    k <= length s /\ m_start m = pos + k /\
    m_atoms U fl floor p (0, 0) (prev_at prev s k) (skipn k s) (pos + k)
      = Some (m_end m, m_span1 m) /\
    forall j, j < k ->
      m_atoms U fl floor p (0, 0) (prev_at prev s j) (skipn j s) (pos + j) = None.
Proof.
  revert prev pos.
  induction s as [|c s IH]; intros prev pos; simpl.
  - destruct (m_atoms U fl floor p (0, 0) prev [] pos) as [[e g]|] eqn:E;
      try discriminate.
    intros H. injection H as <-. exists 0. simpl.
    rewrite Nat.add_0_r. repeat split; auto. all: intros; lia.
  - destruct (m_atoms U fl floor p (0, 0) prev (c :: s) pos) as [[e g]|] eqn:E.
    + intros H. injection H as <-. exists 0. simpl.
      rewrite Nat.add_0_r. repeat split; auto; try lia. all: intros; lia.
    + intros H. destruct (IH _ _ H) as (k & Hk & Hst & Hm & Hlt).
      exists (S k). rewrite prev_at_cons. simpl skipn.
      rewrite Nat.add_succ_r. repeat split; auto; try (simpl; lia).
      intros [|j] Hj.
      * simpl. now rewrite Nat.add_0_r.
      * rewrite prev_at_cons. simpl skipn. rewrite Nat.add_succ_r.
        apply Hlt. lia.
Qed.

Lemma search_from_none floor p prev s pos :
  search_from U fl floor p prev s pos = None <->
  forall k, k <= length s ->
    m_atoms U fl floor p (0, 0) (prev_at prev s k) (skipn k s) (pos + k) = None.
Proof.
  revert prev pos.
  induction s as [|c s IH]; intros prev pos; simpl.
  - split.
    + destruct (m_atoms U fl floor p (0, 0) prev [] pos) as [[e g]|] eqn:E;
        try discriminate.
      intros _ k Hk. assert (k = 0) by lia. subst k. simpl.
      now rewrite Nat.add_0_r.
    + intros H. specialize (H 0 (le_n 0)). simpl in H.
      rewrite Nat.add_0_r in H. now rewrite H.
  - split.
    + destruct (m_atoms U fl floor p (0, 0) prev (c :: s) pos) as [[e g]|] eqn:E;
        try discriminate.
      intros H [|k] Hk.
      * simpl. now rewrite Nat.add_0_r.
      * rewrite prev_at_cons. simpl skipn. rewrite Nat.add_succ_r.
        apply (proj1 (IH _ _) H). lia.
    + intros H. pose proof (H 0 (Nat.le_0_l _)) as H0. simpl in H0.
      rewrite Nat.add_0_r in H0. rewrite H0.
      apply IH. intros k Hk. specialize (H (S k)).
      rewrite prev_at_cons in H. simpl skipn in H.
      rewrite Nat.add_succ_r in H. apply H. lia.
Qed.

Lemma search_from_found floor p prev s pos k e g :
  k <= length s ->
  m_atoms U fl floor p (0, 0) (prev_at prev s k) (skipn k s) (pos + k) = Some (e, g) ->
  (forall j, j < k ->
     m_atoms U fl floor p (0, 0) (prev_at prev s j) (skipn j s) (pos + j) = None) ->
  search_from U fl floor p prev s pos
  = Some {| m_start := pos + k; m_end := e; m_span1 := g |}.
Proof.
  intros Hk Hm Hlt.
  destruct (search_from U fl floor p prev s pos) as [m|] eqn:E.
  - destruct (search_from_some _ _ _ _ _ _ E) as (k' & Hk' & Hst & Hm' & Hlt').
    assert (k' = k).
    { destruct (Nat.lt_trichotomy k' k) as [H|[H|H]]; auto.
      - rewrite (Hlt _ H) in Hm'. discriminate.
      - rewrite (Hlt' _ H) in Hm. discriminate. }
    subst k'. rewrite Hm in Hm'. injection Hm' as He Hg.
    destruct m as [ms me mg]. simpl in *. now subst.
  - rewrite (proj1 (search_from_none _ _ _ _ _) E k Hk) in Hm. discriminate.
Qed.

(** The same for [re.search] on a whole text. *)
Lemma search_some p text m :
  Re.search U fl p text = Some m ->
  m_start m <= length text /\
  match_at fl p text (m_start m) = Some (m_end m, m_span1 m) /\
  forall j, j < m_start m -> matches_at fl p text j = false.
Proof.
  intros H. destruct (search_from_some _ _ _ _ _ _ H) as (k & Hk & Hst & Hm & Hlt).
  simpl in Hst. subst k. repeat split; auto.
  intros j Hj. unfold matches_at, match_at.
  specialize (Hlt j Hj). simpl in Hlt. now rewrite Hlt.
Qed.

Lemma search_none p text :
  Re.search U fl p text = None <->
  forall k, k <= length text -> matches_at fl p text k = false.
Proof.
  unfold Re.search. rewrite search_from_none. unfold matches_at, match_at.
  simpl. split; intros H k Hk; specialize (H k Hk).
  - now rewrite H.
  - now destruct (m_atoms U fl 0 p (0, 0) (prev_at None text k) (skipn k text) k).
Qed.

End MatcherFacts.

(** ** [re.sub(r"\s+", " ", s)] *)

Lemma span_ext ok ok' hi s :
  (forall c, ok c = ok' c) -> span ok hi s = span ok' hi s.
Proof.
  intros H. revert hi. induction s as [|c s IH]; intros hi; simpl; auto.
  rewrite H. destruct (ok' c && can_take hi); auto.
Qed.

Lemma span_le ok hi s : span ok hi s <= length s.
Proof.
  revert hi. induction s as [|c s IH]; intros hi; simpl; auto.
  destruct (ok c && can_take hi); [|lia].
  specialize (IH (option_map pred hi)). lia.
Qed.

Lemma index_where_run ok s a :
  index_where ok s = Some a -> a < length s /\ 1 <= span ok None (skipn a s).
Proof.
  revert a. induction s as [|c s IH]; simpl; try discriminate.
  intros a. destruct (ok c) eqn:E.
  - intros H. injection H as <-. simpl. rewrite E. simpl. lia.
  - destruct (index_where ok s) as [a'|]; try discriminate.
    intros H. injection H as <-. simpl. destruct (IH a' eq_refl). lia.
Qed.

Lemma m_atoms_ws fl g prev s pos :
  m_atoms U fl 0 [plus Space] g prev s pos =
  if 1 <=? span Unicode.is_space None s
  then Some (pos + span Unicode.is_space None s, g) else None.
Proof.
  change (m_atoms U fl 0 [plus Space] g prev s pos)
    with (rep_greedy (cls_ok U fl Space) (m_atoms U fl 0 [] g) 1 None prev s pos).
  rewrite (span_ext Unicode.is_space (cls_ok U fl Space)) by reflexivity.
  destruct (Nat.leb_spec 1 (span (cls_ok U fl Space) None s)) as [E|E].
  - now apply rep_greedy_max.
  - now apply rep_greedy_short.
Qed.

Lemma search_from_ws fl prev s pos :
  search_from U fl 0 [plus Space] prev s pos =
  match index_where Unicode.is_space s with
  | None => None
  | Some a =>
      Some {| m_start := pos + a;
              m_end := pos + a + span Unicode.is_space None (skipn a s);
              m_span1 := (0, 0) |}
  end.
Proof.
  revert prev pos. induction s as [|c s IH]; intros prev pos.
  - reflexivity.
  - unfold search_from; fold search_from. rewrite m_atoms_ws.
    simpl span. simpl index_where.
    destruct (Unicode.is_space c) eqn:E; simpl.
    + now rewrite E, !Nat.add_0_r.
    + rewrite IH. destruct (index_where Unicode.is_space s); simpl; auto.
      now rewrite !Nat.add_succ_r.
Qed.

Lemma sub_loop_ws fl fuel prev s pos :
  length s < fuel ->
  sub_loop U fl fuel [plus Space] [SP] false prev s pos = squeeze false s.
Proof.
  revert prev s pos.
  induction fuel as [|fuel IH]; intros prev s pos Hf; [lia|].
  simpl sub_loop. rewrite search_from_ws.
  destruct (index_where Unicode.is_space s) as [a|] eqn:E.
  - destruct (index_where_run _ _ _ E) as [Ha Hn].
    cbv beta iota zeta delta [m_start m_end].
    replace (pos + a - pos) with a by lia.
    replace (pos + a + span Unicode.is_space None (skipn a s) - pos)
      with (a + span Unicode.is_space None (skipn a s)) by lia.
    replace (pos + a + span Unicode.is_space None (skipn a s) =? pos + a)
      with false by (symmetry; apply Nat.eqb_neq; lia).
    rewrite IH.
    + now rewrite (squeeze_first_space s a E).
    + rewrite length_skipn. lia.
  - now rewrite squeeze_no_space.
Qed.

Lemma sub_ws fl s : Re.sub U fl [plus Space] (py " ") s = squeeze false s.
Proof. unfold Re.sub. apply sub_loop_ws. lia. Qed.

Lemma clean_squeeze s :
  clean_ingredients_string s = strip_chars (py " \t\n\r;,.") (squeeze false s).
Proof. unfold clean_ingredients_string. now rewrite sub_ws. Qed.

Lemma clean_fix s :
  clean_ingredients_string (clean_ingredients_string s) = clean_ingredients_string s.
Proof.
  rewrite (clean_squeeze (clean_ingredients_string s)), clean_squeeze.
  unfold strip_chars.
  rewrite (squeezed_fix false).
  - apply strip_by_idem.
  - apply squeezed_strip_by, squeeze_squeezed.
Qed.

(** ** The stop-marker scan *)

Section CutFacts.

Variable fl : flags.
Variable w : pystr.

Lemma cut_step_min cut sm :
  cut_step fl w cut sm =
  match Re.search U fl sm w with
  | Some ms => Nat.min (m_start ms) cut
  | None => cut
  end.
Proof.
  unfold cut_step. destruct (Re.search U fl sm w) as [ms|]; auto.
  destruct (Nat.ltb_spec (m_start ms) cut); lia.
Qed.

Lemma cut_step_comm cut a b :
  cut_step fl w (cut_step fl w cut a) b = cut_step fl w (cut_step fl w cut b) a.
Proof.
  rewrite !cut_step_min.
  destruct (Re.search U fl a w), (Re.search U fl b w); lia.
Qed.

Lemma fold_cut_step_perm ms ms' :
  Permutation ms ms' ->
  forall cut, fold_left (cut_step fl w) ms cut = fold_left (cut_step fl w) ms' cut.
Proof.
  induction 1 as [|x l l' _ IH|x y l|l l' l'' _ IH1 _ IH2]; intros cut; simpl; auto.
  - now rewrite cut_step_comm.
  - now rewrite IH1.
Qed.

Lemma fold_cut_step_le ms cut : fold_left (cut_step fl w) ms cut <= cut.
Proof.
  revert cut. induction ms as [|sm ms IH]; intros cut; simpl; auto.
  specialize (IH (cut_step fl w cut sm)). rewrite cut_step_min in *.
  destruct (Re.search U fl sm w); lia.
Qed.

Lemma fold_cut_step_lower ms cut sm m :
  In sm ms -> Re.search U fl sm w = Some m ->
  fold_left (cut_step fl w) ms cut <= m_start m.
Proof.
  revert cut. induction ms as [|x ms IH]; intros cut Hin Hm; [destruct Hin|].
  simpl. destruct Hin as [->|Hin].
  - pose proof (fold_cut_step_le ms (cut_step fl w cut sm)) as H.
    assert (cut_step fl w cut sm <= m_start m)
      by (rewrite cut_step_min, Hm; lia).
    lia.
  - now apply IH.
Qed.

Lemma fold_cut_step_attained ms cut :
  fold_left (cut_step fl w) ms cut = cut \/
  exists sm m, In sm ms /\ Re.search U fl sm w = Some m /\
               m_start m = fold_left (cut_step fl w) ms cut.
Proof.
  revert cut. induction ms as [|x ms IH]; intros cut; simpl; auto.
  destruct (IH (cut_step fl w cut x)) as [H|(sm & m & Hin & Hm & Hst)].
  - rewrite H, cut_step_min.
    destruct (Re.search U fl x w) as [m|] eqn:E; auto.
    destruct (Nat.le_gt_cases cut (m_start m)).
    + left. lia.
    + right. exists x, m. repeat split; auto. lia.
  - right. exists sm, m. auto.
Qed.

(** The cut position is the leftmost position at which any marker
    matches, or the length of the window when none matches before its
    end. *)
Lemma cut_position_spec markers :
  cut_position fl markers w <= length w /\
  (forall sm i, In sm markers -> i < cut_position fl markers w ->
                matches_at fl sm w i = false) /\
  (cut_position fl markers w < length w ->
   exists sm, In sm markers /\
              matches_at fl sm w (cut_position fl markers w) = true).
Proof.
  unfold cut_position. split; [apply fold_cut_step_le|]. split.
  - intros sm i Hin Hi.
    destruct (matches_at fl sm w i) eqn:E; auto.
    pose proof (fold_cut_step_le markers (length w)) as Hle.
    destruct (Re.search U fl sm w) as [m|] eqn:Es.
    + pose proof (fold_cut_step_lower markers (length w) sm m Hin Es) as Hlow.
      destruct (search_some _ _ _ _ Es) as (_ & _ & Hleft).
      destruct (Nat.lt_ge_cases i (m_start m)) as [H|H]; [|lia].
      rewrite (Hleft i H) in E. discriminate.
    + rewrite (proj1 (search_none _ _ _) Es i) in E by lia. discriminate.
  - intros Hlt.
    destruct (fold_cut_step_attained markers (length w))
      as [H|(sm & m & Hin & Hm & Hst)]; [lia|].
    exists sm. split; auto.
    destruct (search_some _ _ _ _ Hm) as (_ & Hat & _).
    unfold matches_at. rewrite <- Hst, Hat. reflexivity.
Qed.

Lemma cut_position_perm markers markers' :
  Permutation markers markers' ->
  cut_position fl markers w = cut_position fl markers' w.
Proof. intros H. unfold cut_position. now apply fold_cut_step_perm. Qed.

End CutFacts.

Lemma skipn_head {A} (l : list A) i c r : skipn i l = c :: r -> nth_error l i = Some c.
Proof.
  revert l. induction i as [|i IH]; intros [|x l]; simpl; try discriminate.
  - now intros [= -> _].
  - apply IH.
Qed.

Lemma lit_match_newline ic c : Unicode.lit_match U ic NL c = true -> c = NL.
Proof.
  unfold Unicode.lit_match. change (Unicode.latin1_cased NL) with false.
  rewrite andb_false_r, andb_false_l, orb_false_r. apply N.eqb_eq.
Qed.

Lemma newline_first_match fl rest w i :
  matches_at fl (Chr (Lit NL) :: rest) w i = true -> nth_error w i = Some NL.
Proof.
  unfold matches_at, match_at. simpl.
  destruct (skipn i w) as [|c r] eqn:E; try discriminate.
  destruct (Unicode.lit_match U (IGNORECASE fl) NL c) eqn:Ec; try discriminate.
  intros _. apply lit_match_newline in Ec. subst c.
  now apply skipn_head with (r := r).
Qed.

Lemma markers_start_with_newline :
  Forall (fun sm => exists rest, sm = Chr (Lit NL) :: rest) (STOP_MARKERS ++ stop_pats).
Proof. repeat constructor; eexists; reflexivity. Qed.

Lemma cut_at_newline fl markers w :
  Forall (fun sm => exists rest, sm = Chr (Lit NL) :: rest) markers ->
  cut_position fl markers w = length w \/
  nth_error w (cut_position fl markers w) = Some NL.
Proof.
  intros Hall.
  destruct (cut_position_spec fl w markers) as (Hle & _ & Hat).
  destruct (Nat.eq_dec (cut_position fl markers w) (length w)) as [H|H]; auto.
  right. destruct Hat as (sm & Hin & Hm); [lia|].
  rewrite Forall_forall in Hall. destruct (Hall sm Hin) as [rest ->].
  eapply newline_first_match; eassumption.
Qed.

(** ** The inline extractor *)

Lemma lit_match_uncased ic p c :
  Unicode.latin1_cased p = false -> Unicode.lit_match U ic p c = (c =? p)%N.
Proof.
  intros H. unfold Unicode.lit_match.
  now rewrite H, andb_false_r, andb_false_l, orb_false_r.
Qed.

Lemma separator_class fl c :
  cls_ok U fl (OneOf [chr ":"; chr "-"]) c = ((c =? 58) || (c =? 45))%N.
Proof.
  simpl. rewrite !lit_match_uncased by reflexivity.
  now rewrite orb_false_r.
Qed.

Lemma patterns_have_separator :
  Forall (fun pat => In (Chr (OneOf [chr ":"; chr "-"])) pat) patterns.
Proof.
  unfold patterns.
  repeat (apply Forall_cons; [cbv; repeat (first [left; reflexivity | right])|]).
  apply Forall_nil.
Qed.

(** What a result of the loop over the label patterns is made of. *)
Lemma inline_loop_some pats text s :
  inline_loop pats text = Some s ->
  exists pat m,
    In pat pats /\ Re.search U ICASE_DOTALL pat text = Some m /\
    s = clean_ingredients_string
          (firstn (cut_position ICASE STOP_MARKERS (group1 m text)) (group1 m text)) /\
    truthy s = true.
Proof.
  induction pats as [|pat rest IH]; simpl; try discriminate.
  destruct (Re.search U ICASE_DOTALL pat text) as [m|] eqn:E.
  - destruct (truthy (clean_ingredients_string _)) eqn:Et.
    + intros H. injection H as <-. exists pat, m. auto.
    + intros H. destruct (IH H) as (pat' & m' & Hin & Hrest).
      exists pat', m'. auto.
  - intros H. destruct (IH H) as (pat' & m' & Hin & Hrest).
    exists pat', m'. auto.
Qed.

Lemma inline_loop_none_of pats text :
  (forall pat, In pat pats -> Re.search U ICASE_DOTALL pat text = None) ->
  inline_loop pats text = None.
Proof.
  induction pats as [|pat rest IH]; simpl; auto.
  intros H. rewrite (H pat) by auto. apply IH. intros p Hp. apply H. auto.
Qed.

Lemma truthy_nonempty s : truthy s = true <-> s <> [].
Proof. destruct s; simpl; split; congruence. Qed.

(** ** Extent of a match, and [re.sub] with an anchored pattern *)

Lemma rep_greedy_bounds {R} ok (cont : option char -> pystr -> nat -> option R)
    (fe : R -> nat) (n : nat) lo hi prev s pos r :
  (forall prev' s' pos' r', cont prev' s' pos' = Some r' ->
     pos' + n <= fe r' <= pos' + length s') ->
  rep_greedy ok cont lo hi prev s pos = Some r ->
  pos + lo + n <= fe r <= pos + length s.
Proof.
  intros Hc. revert lo hi prev pos.
  induction s as [|c s IH]; intros lo hi prev pos; simpl.
  - destruct lo; simpl; try discriminate.
    intros H. apply Hc in H. simpl in H. lia.
  - destruct (ok c && can_take hi).
    + destruct (rep_greedy ok cont (pred lo) (option_map pred hi) (Some c) s (S pos))
        as [r'|] eqn:E.
      * intros H. injection H as <-. apply IH in E. lia.
      * destruct lo; simpl; try discriminate.
        intros H. apply Hc in H. simpl in H. lia.
    + destruct lo; simpl; try discriminate.
      intros H. apply Hc in H. simpl in H. lia.
Qed.

Lemma m_atoms_bounds fl floor p g prev s pos e g' :
  m_atoms U fl floor p g prev s pos = Some (e, g') ->
  pos + min_len p <= e <= pos + length s.
Proof.
  revert g prev s pos e g'.
  induction p as [|a p IH]; intros g prev s pos e g'; simpl.
  - destruct (floor <=? pos); try discriminate.
    intros H. injection H as <- _. lia.
  - destruct a.
    + destruct s as [|c s]; try discriminate.
      destruct (cls_ok U fl k c); try discriminate.
      intros H. apply IH in H. simpl. lia.
    + intros H.
      apply (rep_greedy_bounds _ _ fst (min_len p)) in H; [simpl in H; lia|].
      intros prev' s' pos' [e' g''] H'. simpl. eapply IH; eassumption.
    + destruct prev; try discriminate. apply IH.
    + destruct (boundary U prev s); try discriminate. apply IH.
    + apply IH.
    + apply IH.
Qed.

Lemma search_from_bol_later fl floor p c s pos :
  search_from U fl floor (Bol :: p) (Some c) s pos = None.
Proof.
  revert c pos. induction s as [|d s IH]; intros c pos; simpl; auto.
Qed.

Lemma search_from_unfold fl floor p prev s pos :
  search_from U fl floor p prev s pos =
  match m_atoms U fl floor p (0, 0) prev s pos with
  | Some (e, g) => Some {| m_start := pos; m_end := e; m_span1 := g |}
  | None =>
      match s with
      | [] => None
      | c :: s' => search_from U fl floor p (Some c) s' (S pos)
      end
  end.
Proof. destruct s; reflexivity. Qed.

Lemma sub_loop_S fl fuel p repl adv prev s pos :
  sub_loop U fl (S fuel) p repl adv prev s pos =
  match search_from U fl (if adv then S pos else 0) p prev s pos with
  | None => s
  | Some m =>
      firstn (m_start m - pos) s ++ repl ++
        sub_loop U fl fuel p repl (m_end m =? m_start m)
          (prev_at prev s (m_end m - pos)) (skipn (m_end m - pos) s) (m_end m)
  end.
Proof. reflexivity. Qed.

(** An anchored pattern is replaced at most once, at the start. *)
Lemma sub_bol fl p repl text :
  1 <= min_len p ->
  Re.sub U fl (Bol :: p) repl text =
  match match_at fl (Bol :: p) text 0 with
  | Some (e, _) => repl ++ skipn e text
  | None => text
  end.
Proof.
  intros Hmin. unfold Re.sub, match_at.
  replace (2 * length text + 2) with (S (S (2 * length text))) by lia.
  rewrite sub_loop_S, search_from_unfold.
  change (prev_at None text 0) with (@None char).
  change (skipn 0 text) with text.
  destruct (m_atoms U fl 0 (Bol :: p) (0, 0) None text 0) as [[e g]|] eqn:E.
  - apply m_atoms_bounds in E. simpl in E.
    cbn [m_start m_end]. rewrite Nat.sub_0_r. simpl firstn. simpl app.
    destruct e as [|e']; [lia|].
    destruct (nth_error text e') as [x|] eqn:Ex.
    + rewrite !Nat.sub_0_r. cbn [prev_at].
      now rewrite Ex, search_from_bol_later.
    + apply nth_error_None in Ex. lia.
  - destruct text as [|c s]; auto.
    now rewrite search_from_bol_later.
Qed.

(** ** The tabular extractor *)

Lemma fold_left_inv {A B} (f : A -> B -> A) (P : A -> Prop) l a :
  (forall a b, P a -> P (f a b)) -> P a -> P (fold_left f l a).
Proof.
  intros Hf. revert a. induction l as [|b l IH]; intros a Ha; simpl; auto.
Qed.

Lemma strip_idem s : strip (strip s) = strip s.
Proof. apply strip_by_idem. Qed.

Lemma extract_name_stripped line name :
  _extract_name_from_line line = Some name -> strip name = name.
Proof.
  unfold _extract_name_from_line.
  destruct (negb (truthy (strip line))); try discriminate.
  repeat match goal with
         | |- context [match ?x with Some _ => _ | None => _ end] => destruct x
         end;
    intros H; injection H as <-; apply strip_idem.
Qed.

Lemma line_step_kept hpat all_names raw_line :
  Forall kept_name all_names -> Forall kept_name (line_step hpat all_names raw_line).
Proof.
  intros H. unfold line_step.
  destruct (negb (truthy (strip raw_line))); auto.
  destruct (is_some (Re.search U ICASE hpat (strip raw_line))); auto.
  destruct (is_some (Re.match_ U ICASE inci_column_label (strip raw_line))); auto.
  destruct (_extract_name_from_line (strip raw_line)) as [name|] eqn:E; auto.
  destruct (negb (truthy name)); auto.
  destruct (Nat.ltb_spec (length name) 3); auto.
  apply Forall_app. split; auto.
  constructor; auto. split; auto. eapply extract_name_stripped; eassumption.
Qed.

Lemma header_step_kept text all_names hpat :
  Forall kept_name all_names -> Forall kept_name (header_step text all_names hpat).
Proof.
  intros H. unfold header_step.
  destruct (Re.search U ICASE hpat text); auto.
  apply fold_left_inv; auto. intros. now apply line_step_kept.
Qed.

Lemma collect_names_kept text : Forall kept_name (collect_names text).
Proof.
  unfold collect_names. apply fold_left_inv; auto.
  intros. now apply header_step_kept.
Qed.

Lemma search_leftmost fl p text i :
  leftmost fl p text i ->
  exists m, Re.search U fl p text = Some m /\ m_start m = i.
Proof.
  intros (Hi & Hm & Hlt). unfold matches_at, match_at in *.
  destruct (m_atoms U fl 0 p (0, 0) (prev_at None text i) (skipn i text) i)
    as [[e g]|] eqn:E; try discriminate.
  exists {| m_start := i; m_end := e; m_span1 := g |}. split; auto.
  unfold Re.search.
  apply (search_from_found fl 0 p None text 0 i e g); auto.
  intros j Hj. specialize (Hlt j Hj). simpl.
  now destruct (m_atoms U fl 0 p (0, 0) (prev_at None text j) (skipn j text) j).
Qed.

Lemma search_no_match fl p text : no_match fl p text -> Re.search U fl p text = None.
Proof. intros H. now apply search_none. Qed.

(** *** The loop over [seen] and [unique] *)

Lemma fold_unique_seen l seen uniq y :
  In y (fst (fold_left unique_step l (seen, uniq))) <-> In y seen \/ In y l.
Proof.
  revert seen uniq. induction l as [|n l IH]; intros seen uniq; simpl.
  - tauto.
  - destruct (ListSet.set_mem pystr_eq_dec n seen) eqn:E.
    + rewrite IH. apply ListSet.set_mem_correct1 in E.
      split; intros [H|H]; auto. destruct H as [<-|H]; auto.
    + rewrite IH, ListSet.set_add_iff. split; intros H.
      * destruct H as [[->|H]|H]; auto.
      * destruct H as [H|[->|H]]; auto.
Qed.

Lemma dedup_snoc l x :
  dedup (l ++ [x]) = if in_dec pystr_eq_dec x l then dedup l else dedup l ++ [x].
Proof.
  unfold dedup. rewrite fold_left_app. simpl.
  pose proof (fold_unique_seen l (ListSet.empty_set pystr) [] x) as Hs.
  destruct (fold_left unique_step l (ListSet.empty_set pystr, [])) as [seen uniq].
  simpl in *.
  destruct (ListSet.set_mem pystr_eq_dec x seen) eqn:E.
  - apply ListSet.set_mem_correct1 in E.
    destruct (in_dec pystr_eq_dec x l) as [H|H]; auto.
    exfalso. apply H. tauto.
  - apply ListSet.set_mem_complete1 in E.
    destruct (in_dec pystr_eq_dec x l) as [H|H]; auto.
    exfalso. apply E. tauto.
Qed.

Lemma dedup_In l y : In y (dedup l) <-> In y l.
Proof.
  induction l as [|x l IH] using rev_ind.
  - simpl. tauto.
  - rewrite dedup_snoc. destruct (in_dec pystr_eq_dec x l) as [H|H].
    + rewrite IH, in_app_iff. simpl. split; auto.
      intros [Hy|[<-|[]]]; auto.
    + rewrite !in_app_iff, IH. tauto.
Qed.

Lemma dedup_NoDup l : NoDup (dedup l).
Proof.
  induction l as [|x l IH] using rev_ind.
  - constructor.
  - rewrite dedup_snoc. destruct (in_dec pystr_eq_dec x l) as [H|H]; auto.
    apply NoDup_app; auto.
    + repeat constructor. simpl. tauto.
    + intros a Ha [<-|[]]. apply H. now apply dedup_In.
Qed.

Lemma index_of_In x l : In x l -> index_of x l < length l.
Proof.
  induction l as [|y l IH]; simpl; [tauto|].
  destruct (pystr_eq_dec x y); [lia|].
  intros [H|H]; [congruence|]. apply IH in H. lia.
Qed.

Lemma index_of_app x l r : In x l -> index_of x (l ++ r) = index_of x l.
Proof.
  induction l as [|y l IH]; simpl; [tauto|].
  destruct (pystr_eq_dec x y); auto.
  intros [H|H]; [congruence|]. now rewrite IH.
Qed.

Lemma index_of_snoc x l : ~ In x l -> index_of x (l ++ [x]) = length l.
Proof.
  induction l as [|y l IH]; simpl.
  - intros _. now destruct (pystr_eq_dec x x).
  - intros H. destruct (pystr_eq_dec x y) as [->|Hn]; [tauto|].
    rewrite IH; tauto.
Qed.

Lemma sorted_snoc (m : list nat) b :
  StronglySorted lt m -> Forall (fun a => a < b) m -> StronglySorted lt (m ++ [b]).
Proof.
  induction 1 as [|a m Hs IH Ha]; intros Hb; simpl.
  - repeat constructor.
  - inversion Hb; subst. constructor; auto.
    apply Forall_app. split; auto.
Qed.

Lemma dedup_sorted l :
  StronglySorted lt (map (fun y => index_of y l) (dedup l)).
Proof.
  induction l as [|x l IH] using rev_ind.
  - constructor.
  - assert (Hmap : map (fun y => index_of y (l ++ [x])) (dedup l)
                   = map (fun y => index_of y l) (dedup l)).
    { apply map_ext_in. intros y Hy. apply index_of_app. now apply dedup_In. }
    rewrite dedup_snoc. destruct (in_dec pystr_eq_dec x l) as [H|H].
    + now rewrite Hmap.
    + rewrite map_app, Hmap. simpl. rewrite index_of_snoc by assumption.
      apply sorted_snoc; auto.
      apply Forall_forall. intros a Ha. apply in_map_iff in Ha as (y & <- & Hy).
      apply index_of_In. now apply dedup_In.
Qed.

Lemma join_nonempty sep n rest : n <> [] -> join sep (n :: rest) <> [].
Proof.
  intros Hn. destruct rest; simpl; auto.
  destruct n; [congruence|discriminate].
Qed.

(** ** The claims *)

(** C9. Normalization is idempotent: normalizing a normalized string
    changes nothing. The normalizer replaces every run of whitespace by
    one space and then removes spaces, tabs, newlines, carriage returns,
    semicolons, commas and periods from both ends. *)
Theorem normalize_idempotent :
  forall s,
    clean_ingredients_string (clean_ingredients_string s)
    = clean_ingredients_string s /\
    clean_ingredients_string s
    = strip_chars (py " \t\n\r;,.") (squeeze false s).
Proof.
  intros s. split.
  - apply clean_fix.
  - apply clean_squeeze.
Qed.

(** C10. Stop markers and section-end markers take effect at line starts
    only: every pattern of the two sets begins with a newline, a marker
    matches at a position only if the character there is a newline, the
    cut position of either scan is the end of the window or the position
    of a newline, and a window without a newline is never cut. *)
Theorem markers_only_at_line_start :
  forall w,
    (forall sm, In sm (STOP_MARKERS ++ stop_pats) ->
                exists rest, sm = Chr (Lit NL) :: rest) /\
    (forall sm i, In sm (STOP_MARKERS ++ stop_pats) ->
                  matches_at ICASE sm w i = true -> nth_error w i = Some NL) /\
    (cut_position ICASE STOP_MARKERS w = length w \/
     nth_error w (cut_position ICASE STOP_MARKERS w) = Some NL) /\
    (cut_position ICASE stop_pats w = length w \/
     nth_error w (cut_position ICASE stop_pats w) = Some NL) /\
    (~ In NL w ->
     cut_position ICASE STOP_MARKERS w = length w /\
     cut_position ICASE stop_pats w = length w).
Proof.
  intros w.
  pose proof markers_start_with_newline as Hall.
  assert (H1 : Forall (fun sm => exists rest, sm = Chr (Lit NL) :: rest) STOP_MARKERS)
    by (apply Forall_app in Hall; tauto).
  assert (H2 : Forall (fun sm => exists rest, sm = Chr (Lit NL) :: rest) stop_pats)
    by (apply Forall_app in Hall; tauto).
  split; [now apply Forall_forall|].
  split.
  { intros sm i Hin Hm. rewrite Forall_forall in Hall.
    destruct (Hall sm Hin) as [rest ->]. eapply newline_first_match; eassumption. }
  split; [now apply cut_at_newline|].
  split; [now apply cut_at_newline|].
  intros Hno. split.
  - destruct (cut_at_newline ICASE STOP_MARKERS w H1) as [H|H]; auto.
    exfalso. apply Hno. eapply nth_error_In; eassumption.
  - destruct (cut_at_newline ICASE stop_pats w H2) as [H|H]; auto.
    exfalso. apply Hno. eapply nth_error_In; eassumption.
Qed.

Lemma cut_window_search pat text :
  cut_window pat text
  = match Re.search U ICASE_DOTALL pat text with
    | Some m =>
        Some (clean_ingredients_string
                (firstn (cut_position ICASE STOP_MARKERS (group1 m text))
                        (group1 m text)))
    | None => None
    end.
Proof. reflexivity. Qed.

(** The loop over the label patterns returns what the first pattern with a
    non-empty cut window yields. *)
Lemma inline_loop_first pats text s :
  inline_loop pats text = Some s <->
  exists before pat rest,
    pats = before ++ pat :: rest /\
    cut_window pat text = Some s /\ s <> [] /\
    forall p, In p before ->
      cut_window p text = None \/ cut_window p text = Some [].
Proof.
  revert s. induction pats as [|p0 pats IH]; intros s.
  - simpl. split; [discriminate|].
    intros (before & pat & rest & E & _). destruct before; discriminate.
  - cbn [inline_loop]. pose proof (cut_window_search p0 text) as Hw.
    destruct (Re.search U ICASE_DOTALL p0 text) as [m|]; cbv zeta.
    + destruct (truthy (clean_ingredients_string _)) eqn:Et.
      * split.
        { intros H. injection H as <-. exists [], p0, pats.
          repeat split; auto.
          - now apply truthy_nonempty.
          - intros p []. }
        { intros (before & pat & rest & E & Hs & Hne & Hb).
          destruct before as [|b before]; simpl in E; injection E as E1 E2.
          - rewrite <- E1 in Hs. now rewrite Hw in Hs.
          - destruct (Hb b (or_introl eq_refl)) as [H|H];
              rewrite <- E1, Hw in H; try discriminate.
            injection H as H. rewrite H in Et. discriminate. }
      * rewrite IH. split.
        { intros (before & pat & rest & -> & Hs & Hne & Hb).
          exists (p0 :: before), pat, rest. repeat split; auto.
          intros p [<-|Hp]; auto. right. rewrite Hw. f_equal.
          now destruct (clean_ingredients_string _). }
        { intros (before & pat & rest & E & Hs & Hne & Hb).
          destruct before as [|b before]; simpl in E; injection E as E1 E2.
          - rewrite <- E1, Hw in Hs. injection Hs as Hs.
            rewrite <- Hs in Hne.
            destruct (clean_ingredients_string _); [now elim Hne|discriminate].
          - exists before, pat, rest. repeat split; auto.
            intros p Hp. apply Hb. now right. }
    + rewrite IH. split.
      * intros (before & pat & rest & -> & Hs & Hne & Hb).
        exists (p0 :: before), pat, rest. repeat split; auto.
        intros p [<-|Hp]; auto.
      * intros (before & pat & rest & E & Hs & Hne & Hb).
        destruct before as [|b before]; simpl in E; injection E as E1 E2.
        { rewrite <- E1, Hw in Hs. discriminate. }
        exists before, pat, rest. repeat split; auto.
        intros p Hp. apply Hb. now right.
Qed.

Lemma group1_nil m : group1 m [] = [].
Proof. unfold group1. now rewrite skipn_nil, firstn_nil. Qed.

(** C1, as the script has it. The inline extractor returns a string
    exactly when some label pattern matches the text and its candidate
    window, cut at the stop-marker scan's position, normalizes to a
    string that is not empty; the string returned is that of the first
    such pattern in the order of the list: the normalization of its
    window up to the cut. Every pattern before it does not match or has a
    cut window that normalizes to the empty string, and is skipped. In
    every window the cut position is the leftmost position at which any
    stop marker matches: no marker matches before it, some marker matches
    at it whenever a marker matches in the window at all, and it is the
    same for every order of the markers. *)
Theorem inline_cut_at_earliest_stop_marker :
  forall text s,
    (extract_inline_ingredients text = Some s <->
     exists before pat rest m,
       patterns = before ++ pat :: rest /\
       Re.search U ICASE_DOTALL pat text = Some m /\
       s = clean_ingredients_string
             (firstn (cut_position ICASE STOP_MARKERS (group1 m text))
                     (group1 m text)) /\
       s <> [] /\
       forall p, In p before ->
         cut_window p text = None \/ cut_window p text = Some []) /\
    (forall pat,
       cut_window pat text
       = match Re.search U ICASE_DOTALL pat text with
         | Some m =>
             Some (clean_ingredients_string
                     (firstn (cut_position ICASE STOP_MARKERS (group1 m text))
                             (group1 m text)))
         | None => None
         end) /\
    (forall after,
       let cut := cut_position ICASE STOP_MARKERS after in
       cut <= length after /\
       (forall sm i, In sm STOP_MARKERS -> i < cut ->
                     matches_at ICASE sm after i = false) /\
       ((exists sm i, In sm STOP_MARKERS /\ i < length after /\
                      matches_at ICASE sm after i = true) ->
        cut < length after /\
        exists sm, In sm STOP_MARKERS /\ matches_at ICASE sm after cut = true) /\
       (forall markers, Permutation markers STOP_MARKERS ->
                        cut_position ICASE markers after = cut)).
Proof.
  intros text s. split; [|split].
  - unfold extract_inline_ingredients. split.
    + destruct (negb (truthy text)); try discriminate.
      intros H. apply inline_loop_first in H
        as (before & pat & rest & E & Hs & Hne & Hb).
      rewrite cut_window_search in Hs.
      destruct (Re.search U ICASE_DOTALL pat text) as [m|] eqn:Em; try discriminate.
      injection Hs as Hs. exists before, pat, rest, m. auto.
    + intros (before & pat & rest & m & E & Hm & Hs & Hne & Hb).
      destruct text as [|c text].
      * exfalso. apply Hne. rewrite Hs, group1_nil, firstn_nil. reflexivity.
      * cbn [truthy negb]. apply inline_loop_first.
        exists before, pat, rest. repeat split; auto.
        rewrite cut_window_search, Hm. now rewrite Hs.
  - intros pat. apply cut_window_search.
  - intros after cut.
    destruct (cut_position_spec ICASE after STOP_MARKERS) as (Hle & Hbefore & Hat).
    split; auto. split; auto. split.
    + intros (sm & i & Hsm & Hi & Hm).
      assert (Hcut : cut < length after).
      { destruct (Nat.lt_ge_cases i cut) as [Hlt|Hge]; [|lia].
        rewrite (Hbefore sm i Hsm Hlt) in Hm. discriminate. }
      split; auto.
    + intros markers Hp. now apply cut_position_perm.
Qed.

(** *** The separator after the label *)

Lemma hd_error_app {A} (a b : list A) :
  hd_error (a ++ b) = match hd_error a with Some x => Some x | None => hd_error b end.
Proof. now destruct a. Qed.

Lemma rep_ends_first {R} (f : R -> nat) ok
    (cont : option char -> pystr -> nat -> option R)
    (contE : option char -> pystr -> nat -> list reach) lo hi prev s pos :
  (forall prev s pos,
     option_map f (cont prev s pos) = option_map r_pos (hd_error (contE prev s pos))) ->
  option_map f (rep_greedy ok cont lo hi prev s pos)
  = option_map r_pos (hd_error (rep_ends ok contE lo hi prev s pos)).
Proof.
  intros H. revert lo hi prev pos.
  induction s as [|c s IH]; intros lo hi prev pos; simpl.
  - destruct (lo =? 0); auto.
  - destruct (ok c && can_take hi).
    + rewrite hd_error_app.
      specialize (IH (pred lo) (option_map pred hi) (Some c) (S pos)).
      destruct (rep_greedy ok cont (pred lo) (option_map pred hi) (Some c) s (S pos)),
               (hd_error (rep_ends ok contE (pred lo) (option_map pred hi) (Some c) s (S pos)));
        simpl in IH; try discriminate; auto.
      destruct (lo =? 0); auto.
    + destruct (lo =? 0); auto.
Qed.

(** [ends] lists the ends of the matches in the matcher's own order: its
    first entry is where the match that [m_atoms] returns ends, and it is
    empty when [m_atoms] finds no match. *)
Lemma ends_first fl p g prev s pos :
  option_map fst (m_atoms U fl 0 p g prev s pos)
  = option_map r_pos (hd_error (ends fl p prev s pos)).
Proof.
  revert g prev s pos.
  induction p as [|a p IH]; intros g prev s pos; simpl; auto.
  destruct a.
  - destruct s as [|c s]; auto. destruct (cls_ok U fl k c); auto.
  - apply rep_ends_first. intros. apply IH.
  - destruct prev; auto.
  - destruct (boundary U prev s); auto.
  - apply IH.
  - apply IH.
Qed.

Lemma rep_split {R} ok (cont : option char -> pystr -> nat -> option R)
    (contE : option char -> pystr -> nat -> list reach)
    (P : reach -> R -> Prop) lo hi prev s pos r :
  (forall prev s pos r, cont prev s pos = Some r ->
     exists st, In st (contE prev s pos) /\ P st r) ->
  rep_greedy ok cont lo hi prev s pos = Some r ->
  exists st, In st (rep_ends ok contE lo hi prev s pos) /\ P st r.
Proof.
  intros H. revert lo hi prev pos.
  induction s as [|c s IH]; intros lo hi prev pos; simpl.
  - destruct (lo =? 0); [apply H|discriminate].
  - destruct (ok c && can_take hi).
    + destruct (rep_greedy ok cont (pred lo) (option_map pred hi) (Some c) s (S pos))
        as [r'|] eqn:E.
      * intros Hr. injection Hr as <-.
        destruct (IH _ _ _ _ E) as (st & Hin & Hp).
        exists st. split; auto. apply in_or_app. now left.
      * destruct (lo =? 0); [|discriminate].
        intros Hr. destruct (H _ _ _ _ Hr) as (st & Hin & Hp).
        exists st. split; auto. apply in_or_app. now right.
    + destruct (lo =? 0); [apply H|discriminate].
Qed.

(** A match of [p1 ++ p2] is a match of [p1] up to one of its ends,
    followed by a match of [p2] from there. *)
Lemma m_atoms_split fl p1 p2 g prev s pos r :
  m_atoms U fl 0 (p1 ++ p2) g prev s pos = Some r ->
  exists st g',
    In st (ends fl p1 prev s pos) /\
    m_atoms U fl 0 p2 g' (r_prev st) (r_rest st) (r_pos st) = Some r.
Proof.
  revert g prev s pos r.
  induction p1 as [|a p1 IH]; intros g prev s pos r; cbn [app m_atoms ends].
  - intros H. exists {| r_prev := prev; r_rest := s; r_pos := pos |}, g.
    simpl. auto.
  - destruct a.
    + destruct s as [|c s]; try discriminate.
      destruct (cls_ok U fl k c); try discriminate. apply IH.
    + intros H.
      apply (rep_split _ _ (ends fl p1)
               (fun st r => exists g',
                    m_atoms U fl 0 p2 g' (r_prev st) (r_rest st) (r_pos st) = Some r))
        in H.
      * destruct H as (st & Hin & g' & Hm). exists st, g'. auto.
      * intros prev' s' pos' r' Hr. destruct (IH _ _ _ _ _ Hr) as (st & g' & Hin & Hm).
        exists st. split; auto. exists g'. exact Hm.
    + destruct prev; try discriminate. apply IH.
    + destruct (boundary U prev s); try discriminate. apply IH.
    + apply IH.
    + apply IH.
Qed.

Lemma rep_then_char {R} ok (cont : option char -> pystr -> nat -> option R)
    (Q : char -> Prop) lo hi prev s pos r :
  (forall prev s pos r, cont prev s pos = Some r -> exists c s', s = c :: s' /\ Q c) ->
  (forall c, Q c -> ok c = false) ->
  rep_greedy ok cont lo hi prev s pos = Some r ->
  exists c s', lstrip ok s = c :: s' /\ Q c.
Proof.
  intros Hc HQ. revert lo hi prev pos.
  induction s as [|c s IH]; intros lo hi prev pos; simpl.
  - destruct (lo =? 0); [|discriminate].
    intros H. destruct (Hc _ _ _ _ H) as (c & s' & E & _). discriminate.
  - assert (Hhere : cont prev (c :: s) pos = Some r ->
                    exists c0 s', (if ok c then lstrip ok s else c :: s) = c0 :: s' /\ Q c0).
    { intros H. destruct (Hc _ _ _ _ H) as (c0 & s' & E & Hq).
      injection E as <- <-. rewrite (HQ c Hq). eauto. }
    destruct (ok c) eqn:Eok; simpl.
    + destruct (can_take hi).
      * destruct (rep_greedy ok cont (pred lo) (option_map pred hi) (Some c) s (S pos))
          as [r'|] eqn:E.
        { intros H. injection H as <-. eapply IH; eassumption. }
        { destruct (lo =? 0); [exact Hhere|discriminate]. }
      * destruct (lo =? 0); [exact Hhere|discriminate].
    + destruct (lo =? 0); [exact Hhere|discriminate].
Qed.

(** [\s*[:\-]\s*(.+)] matches only where, after optional whitespace, the
    text goes on with a colon or a hyphen. *)
Lemma separator_needs_colon fl g prev s pos r :
  m_atoms U fl 0 separator_and_rest g prev s pos = Some r ->
  separator_first s = true.
Proof.
  unfold separator_and_rest, separator_first. cbn [m_atoms star].
  intros H.
  apply (rep_then_char _ _ (fun c => c = chr ":" \/ c = chr "-")) in H.
  - change (cls_ok U fl Space) with Unicode.is_space in H.
    destruct H as (c & s' & -> & [->| ->]); reflexivity.
  - intros prev' s' pos' r' Hr. destruct s' as [|c s']; try discriminate.
    exists c, s'. split; auto.
    destruct (cls_ok U fl (OneOf [chr ":"; chr "-"]) c) eqn:E; try discriminate.
    rewrite separator_class in E. apply orb_true_iff in E.
    destruct E as [E|E]; apply N.eqb_eq in E; auto.
  - intros c [->| ->]; reflexivity.
Qed.

Lemma patterns_labels : patterns = map (fun l => l ++ separator_and_rest) labels.
Proof. vm_compute. reflexivity. Qed.

Lemma label_match_separated l text i :
  In l labels ->
  matches_at ICASE_DOTALL (l ++ separator_and_rest) text i = true ->
  exists st, In st (label_ends l text i) /\ separator_first (r_rest st) = true.
Proof.
  intros Hl H. unfold matches_at, match_at in H.
  destruct (m_atoms U ICASE_DOTALL 0 (l ++ separator_and_rest) (0, 0)
              (prev_at None text i) (skipn i text) i) as [r|] eqn:E;
    try discriminate.
  apply m_atoms_split in E as (st & g' & Hin & Hm).
  exists st. split; auto. eapply separator_needs_colon; eassumption.
Qed.

(** C8, as the script has it. The separator after an ingredient label is
    not optional. Every label pattern is a label followed by
    [\s*[:\-]\s*(.+)], and it matches at a position only if a label that
    starts there is followed, after optional whitespace, by a colon or a
    hyphen. So the inline extractor signals absence for every text in
    which no label is followed in this way, wherever else a colon or a
    hyphen stands in the text. *)
Theorem inline_separator_follows_label :
  patterns = map (fun l => l ++ separator_and_rest) labels /\
  (forall text i pat,
     In pat patterns ->
     matches_at ICASE_DOTALL pat text i = true ->
     separated_label_at text i = true) /\
  (forall text,
     (forall i, i <= length text -> separated_label_at text i = false) ->
     extract_inline_ingredients text = None).
Proof.
  assert (Hpos : forall text i pat,
             In pat patterns ->
             matches_at ICASE_DOTALL pat text i = true ->
             separated_label_at text i = true).
  { intros text i pat Hpat Hm. rewrite patterns_labels in Hpat.
    apply in_map_iff in Hpat as (l & <- & Hl).
    destruct (label_match_separated l text i Hl Hm) as (st & Hin & Hsep).
    unfold separated_label_at. apply existsb_exists. exists l. split; auto.
    apply existsb_exists. exists st. auto. }
  split; [apply patterns_labels|]. split; [exact Hpos|].
  intros text H. unfold extract_inline_ingredients.
  destruct (negb (truthy text)); auto.
  apply inline_loop_none_of. intros pat Hpat.
  apply search_none. intros k Hk.
  destruct (matches_at ICASE_DOTALL pat text k) eqn:E; auto.
  specialize (H k Hk). rewrite (Hpos text k pat Hpat E) in H. discriminate.
Qed.

(** *** Results are not empty *)

Lemma inline_some_clean text s :
  extract_inline_ingredients text = Some s ->
  s <> [] /\ clean_ingredients_string s = s.
Proof.
  unfold extract_inline_ingredients.
  destruct (negb (truthy text)); try discriminate.
  intros H. apply inline_loop_some in H as (pat & m & _ & _ & -> & Ht).
  split; [now apply truthy_nonempty | apply clean_fix].
Qed.

Lemma table_some_names text s :
  extract_table_ingredients text = Some s ->
  s <> [] /\
  exists names,
    names <> [] /\ Forall kept_name names /\ s = join (py ", ") names.
Proof.
  unfold extract_table_ingredients.
  destruct (negb (truthy text)); try discriminate.
  pose proof (collect_names_kept text) as Hk.
  destruct (collect_names text) as [|n r] eqn:E; try discriminate.
  intros H. injection H as <-.
  assert (Hd : Forall kept_name (dedup (n :: r))).
  { apply Forall_forall. intros x Hx.
    apply (proj1 (dedup_In _ _)) in Hx.
    exact (proj1 (Forall_forall _ _) Hk x Hx). }
  assert (Hn : In n (dedup (n :: r))) by (apply dedup_In; simpl; auto).
  destruct (dedup (n :: r)) as [|n' r'] eqn:Ed; [destruct Hn|].
  split.
  - apply join_nonempty. inversion Hd as [|? ? [Hlen _] _]; subst.
    destruct n'; simpl in Hlen; [lia|discriminate].
  - exists (n' :: r'). split; [discriminate|]. split; auto.
Qed.

Lemma found_inline text :
  found (extract_inline_ingredients text) = is_some (extract_inline_ingredients text).
Proof.
  destruct (extract_inline_ingredients text) as [s|] eqn:E; auto.
  simpl. apply truthy_nonempty. now apply (inline_some_clean text).
Qed.

Lemma found_table text :
  found (extract_table_ingredients text) = is_some (extract_table_ingredients text).
Proof.
  destruct (extract_table_ingredients text) as [s|] eqn:E; auto.
  simpl. apply truthy_nonempty. now apply (table_some_names text).
Qed.

(** *** The run of the orchestrator *)

Lemma run_for_each_ocr images log :
  for_each (fun img => tell (ImageToString img) ;;; ret (image_to_string sv img))
           images log
  = (map (image_to_string sv) images, log ++ map ImageToString images).
Proof.
  revert log. induction images as [|img r IH]; intros log; simpl.
  - unfold ret. now rewrite app_nil_r.
  - unfold bind, tell, ret. rewrite IH. now rewrite <- app_assoc.
Qed.

Lemma run_text_from_pdf path log :
  extract_text_from_pdf path log = (native_text path, log ++ [PdfReader path]).
Proof. reflexivity. Qed.

Lemma run_text_with_ocr path log :
  extract_text_with_ocr path log = (ocr_text path, log ++ ocr_calls path).
Proof.
  unfold extract_text_with_ocr.
  change (truthy POPLER_PATH) with true. cbv iota.
  unfold bind at 1. unfold tell at 1. unfold bind.
  rewrite run_for_each_ocr. unfold ret, ocr_text, ocr_calls, ocr_images, ocr_kwargs.
  now rewrite <- app_assoc.
Qed.

(** The calls and the result once the text is recovered. *)
Lemma run_heuristics text log :
  (tell (InlineExtractor text) ;;;
   let ingredients := extract_inline_ingredients text in
   if found ingredients then ret ingredients
   else
     tell (TabularExtractor text) ;;;
     let ingredients := extract_table_ingredients text in
     if found ingredients then ret ingredients
     else ret None) log
  = match extract_inline_ingredients text with
    | Some s => (Some s, log ++ [InlineExtractor text])
    | None => (extract_table_ingredients text,
               (log ++ [InlineExtractor text]) ++ [TabularExtractor text])
    end.
Proof.
  unfold bind, tell, ret. cbv zeta. rewrite found_inline.
  destruct (extract_inline_ingredients text) as [s|]; simpl; auto.
  rewrite found_table.
  destruct (extract_table_ingredients text); reflexivity.
Qed.

Lemma run_orchestrator path log :
  extract_ingredients_from_pdf path log =
  let text := if length (native_text path) <? 40 then ocr_text path
              else native_text path in
  let log' := (log ++ [PdfReader path])
              ++ (if length (native_text path) <? 40 then ocr_calls path else []) in
  match extract_inline_ingredients text with
  | Some s => (Some s, log' ++ [InlineExtractor text])
  | None => (extract_table_ingredients text,
             (log' ++ [InlineExtractor text]) ++ [TabularExtractor text])
  end.
Proof.
  unfold extract_ingredients_from_pdf.
  unfold bind at 1. rewrite run_text_from_pdf.
  unfold bind at 1.
  destruct (length (native_text path) <? 40).
  - rewrite run_text_with_ocr. apply run_heuristics.
  - unfold ret at 1. rewrite app_nil_r. apply run_heuristics.
Qed.

Lemma sub_row_number line :
  Re.sub U no_flags row_number_prefix [] line = without_row_number line.
Proof.
  unfold row_number_prefix, without_row_number.
  rewrite sub_bol by (simpl; lia).
  unfold row_number_prefix.
  now destruct (match_at no_flags _ line 0) as [[e g]|].
Qed.

(** C7, as the script has it. Each extractor and the orchestrator return
    absence or a string that is not empty. A string returned by the
    inline extractor is a fixpoint of the normalizer. A string returned
    by the tabular extractor is the ", "-join of a non-empty list of
    names, each with at least three characters and without whitespace at
    its ends; the normalizer is not applied to it. *)
Theorem results_not_empty :
  forall text path log,
    (forall s, extract_inline_ingredients text = Some s ->
               s <> [] /\ clean_ingredients_string s = s) /\
    (forall s, extract_table_ingredients text = Some s ->
               s <> [] /\
               exists names,
                 names <> [] /\ Forall kept_name names /\
                 s = join (py ", ") names) /\
    (forall s, fst (extract_ingredients_from_pdf path log) = Some s -> s <> []).
Proof.
  intros text path log. split; [|split].
  - apply inline_some_clean.
  - apply table_some_names.
  - intros s. rewrite run_orchestrator. cbv zeta.
    set (t := if length (native_text path) <? 40 then ocr_text path
              else native_text path).
    destruct (extract_inline_ingredients t) as [s'|] eqn:E; simpl.
    + intros H. injection H as <-. now apply (inline_some_clean t).
    + intros H. now apply (table_some_names t).
Qed.

(** C3. The name of a table row: the row-number prefix is removed first;
    then the row is cut at the leftmost CAS number if there is one,
    wherever a decimal quantity or a [c.s.p.] stands; else at the
    leftmost decimal quantity; else at the leftmost [c.s.p.]; else it is
    kept whole. The row "1. Aqua 7732-18-5 0.5" gives "Aqua", and in
    "Aqua 0.5 7732-18-5" the CAS number wins over the quantity that
    stands before it. *)
Theorem row_name_priority :
  (forall line,
     truthy (strip line) = true ->
     let row := without_row_number line in
     (forall i, leftmost no_flags cas_number row i ->
        _extract_name_from_line line = Some (strip (firstn i row))) /\
     (no_match no_flags cas_number row ->
      forall i, leftmost no_flags decimal_quantity row i ->
        _extract_name_from_line line = Some (strip (firstn i row))) /\
     (no_match no_flags cas_number row ->
      no_match no_flags decimal_quantity row ->
      forall i, leftmost ICASE csp_marker row i ->
        _extract_name_from_line line = Some (strip (firstn i row))) /\
     (no_match no_flags cas_number row ->
      no_match no_flags decimal_quantity row ->
      no_match ICASE csp_marker row ->
      _extract_name_from_line line = Some (strip row))) /\
  _extract_name_from_line (py "1. Aqua 7732-18-5 0.5") = Some (py "Aqua") /\
  _extract_name_from_line (py "Aqua 0.5 7732-18-5") = Some (py "Aqua 0.5").
Proof.
  split; [|split; vm_compute; reflexivity].
  intros line Hline row. unfold _extract_name_from_line.
  rewrite Hline. cbv [negb]. cbv zeta. rewrite sub_row_number. fold row.
  split; [|split; [|split]].
  - intros i Hi. destruct (search_leftmost _ _ _ _ Hi) as (m & -> & <-).
    reflexivity.
  - intros Hcas i Hi. rewrite (search_no_match _ _ _ Hcas).
    destruct (search_leftmost _ _ _ _ Hi) as (m & -> & <-). reflexivity.
  - intros Hcas Hdec i Hi.
    rewrite (search_no_match _ _ _ Hcas), (search_no_match _ _ _ Hdec).
    destruct (search_leftmost _ _ _ _ Hi) as (m & -> & <-). reflexivity.
  - intros Hcas Hdec Hcsp.
    now rewrite (search_no_match _ _ _ Hcas), (search_no_match _ _ _ Hdec),
      (search_no_match _ _ _ Hcsp).
Qed.

(** C4. The tabular extractor joins with ", " the accumulated names
    without their repetitions: the list joined has no name twice, has
    exactly the names accumulated, and has them in the order of their
    first occurrences. Two rows with the same name give the name once,
    at its first position. *)
Theorem table_names_deduplicated :
  (forall text,
     let all_names := collect_names text in
     extract_table_ingredients text
     = match all_names with
       | [] => None
       | _ :: _ => Some (join (py ", ") (dedup all_names))
       end /\
     NoDup (dedup all_names) /\
     (forall n, In n (dedup all_names) <-> In n all_names) /\
     StronglySorted lt (map (fun n => index_of n all_names) (dedup all_names))) /\
  collect_names
    (py "Lista de ingredientes\nAqua 7732-18-5 70.0\nGlycerin\nAqua 7732-18-5 5.0\nTotal 100")
  = [py "Aqua"; py "Glycerin"; py "Aqua"] /\
  extract_table_ingredients
    (py "Lista de ingredientes\nAqua 7732-18-5 70.0\nGlycerin\nAqua 7732-18-5 5.0\nTotal 100")
  = Some (py "Aqua, Glycerin").
Proof.
  split; [|split; vm_compute; reflexivity].
  intros text all_names. split; [|split; [|split]].
  - unfold extract_table_ingredients. fold all_names.
    destruct text; [vm_compute|]; reflexivity.
  - apply dedup_NoDup.
  - intros n. apply dedup_In.
  - apply dedup_sorted.
Qed.

(** C5. The orchestrator hands the recovered text of the document, the
    OCR text when the native text has fewer than 40 characters and the
    native text otherwise, to the inline extractor first. When that
    returns a string, the string is the result and the tabular extractor
    is not called; when it signals absence, the tabular extractor is
    called on the same text and its answer, a string or absence, is the
    result. The calls before the inline extractor are those of the text
    recovery. *)
Theorem orchestrator_inline_then_table :
  forall path log,
    (text <- extract_text_from_pdf path ;;
     if length text <? 40 then extract_text_with_ocr path else ret text) log
    = (recovered_text path, log ++ recovery_calls path) /\
    Forall (fun c => is_heuristic_call c = false) (recovery_calls path) /\
    match extract_inline_ingredients (recovered_text path) with
    | Some s =>
        extract_ingredients_from_pdf path log
        = (Some s,
           log ++ recovery_calls path ++ [InlineExtractor (recovered_text path)])
    | None =>
        extract_ingredients_from_pdf path log
        = (extract_table_ingredients (recovered_text path),
           log ++ recovery_calls path
               ++ [InlineExtractor (recovered_text path);
                   TabularExtractor (recovered_text path)])
    end.
Proof.
  intros path log. unfold recovered_text, recovery_calls. split; [|split].
  - unfold bind at 1. rewrite run_text_from_pdf.
    destruct (length (native_text path) <? 40).
    + rewrite run_text_with_ocr. now rewrite <- app_assoc.
    + reflexivity.
  - constructor; auto. destruct (length (native_text path) <? 40); auto.
    unfold ocr_calls. constructor; auto.
    apply Forall_forall. intros c Hc. apply in_map_iff in Hc as (img & <- & _).
    reflexivity.
  - rewrite run_orchestrator. cbv zeta.
    destruct (extract_inline_ingredients _); f_equal;
      repeat (rewrite <- ?app_assoc; simpl); reflexivity.
Qed.

(** C6. When the text decoded from the PDF, the pages joined by newlines
    and trimmed, has fewer than 40 characters, the rasterizer and the OCR
    engine are called before any extractor and the extractors receive the
    OCR text; when it has 40 characters or more the extractors receive it
    and no call to the rasterizer or to the OCR engine is made. *)
Theorem ocr_fallback_below_threshold :
  forall path log,
    native_text path
    = strip (join (py "\n") (map or_empty (page_texts sv path))) /\
    (length (native_text path) < 40 ->
     fst (extract_ingredients_from_pdf path log) = first_found (ocr_text path) /\
     exists heuristics,
       snd (extract_ingredients_from_pdf path log)
       = log ++ [PdfReader path] ++ ocr_calls path
             ++ InlineExtractor (ocr_text path) :: heuristics /\
       Forall (fun c => c = TabularExtractor (ocr_text path)) heuristics) /\
    (40 <= length (native_text path) ->
     fst (extract_ingredients_from_pdf path log) = first_found (native_text path) /\
     exists heuristics,
       snd (extract_ingredients_from_pdf path log)
       = log ++ [PdfReader path]
             ++ InlineExtractor (native_text path) :: heuristics /\
       Forall (fun c => c = TabularExtractor (native_text path)) heuristics).
Proof.
  intros path log. split; [reflexivity|].
  split; intros H; rewrite run_orchestrator; cbv zeta; unfold first_found.
  - apply Nat.ltb_lt in H. rewrite H.
    destruct (extract_inline_ingredients (ocr_text path)).
    + split; auto. exists []. split; auto. simpl snd.
      repeat (rewrite <- ?app_assoc; simpl). reflexivity.
    + split; auto. exists [TabularExtractor (ocr_text path)]. split; auto.
      simpl snd. repeat (rewrite <- ?app_assoc; simpl). reflexivity.
  - apply Nat.ltb_ge in H. rewrite H.
    destruct (extract_inline_ingredients (native_text path)).
    + split; auto. exists []. split; auto. simpl snd.
      repeat (rewrite <- ?app_assoc; simpl). reflexivity.
    + split; auto. exists [TabularExtractor (native_text path)]. split; auto.
      simpl snd. repeat (rewrite <- ?app_assoc; simpl). reflexivity.
Qed.

(** *** A label followed by its list *)

Lemma span_all ok s : (forall c, ok c = true) -> span ok None s = length s.
Proof.
  intros H. induction s as [|c s IH]; simpl; auto.
  now rewrite H, IH.
Qed.

Lemma lstrip_span s :
  lstrip Unicode.is_space s = skipn (span Unicode.is_space None s) s.
Proof.
  induction s as [|c s IH]; simpl; auto.
  destruct (Unicode.is_space c); simpl; auto.
Qed.

Lemma clean_lstrip X :
  clean_ingredients_string (lstrip Unicode.is_space X) = clean_ingredients_string X.
Proof.
  rewrite !clean_squeeze. destruct X as [|c r]; auto.
  simpl. destruct (Unicode.is_space c) eqn:E.
  - rewrite squeeze_skip_run, <- lstrip_span. reflexivity.
  - simpl. now rewrite E.
Qed.

Lemma prev_at_app a b k : k <= length a -> prev_at None (a ++ b) k = prev_at None a k.
Proof.
  destruct k as [|k]; auto. simpl. intros H.
  apply nth_error_app1. lia.
Qed.

Lemma skipn_app_exact {A} (a b : list A) i : skipn (length a + i) (a ++ b) = skipn i b.
Proof.
  rewrite skipn_app. replace (length a + i - length a) with i by lia.
  rewrite skipn_all2 by lia. reflexivity.
Qed.

(** A pattern that starts with a one-character atom matches in a suffix
    of a text where it matches in the text. *)
Lemma matches_at_skip fl k rest pre w i :
  matches_at fl (Chr k :: rest) (pre ++ w) (length pre + i)
  = matches_at fl (Chr k :: rest) w i.
Proof.
  unfold matches_at, match_at. rewrite skipn_app_exact. simpl.
  destruct (skipn i w) as [|c s]; auto.
  destruct (cls_ok U fl k c); auto.
  apply m_atoms_is_some.
Qed.

Lemma no_marker_no_cut X :
  (forall sm, In sm STOP_MARKERS -> no_match ICASE sm X) ->
  cut_position ICASE STOP_MARKERS (lstrip Unicode.is_space X)
  = length (lstrip Unicode.is_space X).
Proof.
  intros Hno. rewrite lstrip_span.
  set (n := span Unicode.is_space None X).
  destruct (cut_position_spec ICASE (skipn n X) STOP_MARKERS) as (Hle & _ & Hat).
  destruct (Nat.eq_dec (cut_position ICASE STOP_MARKERS (skipn n X)) (length (skipn n X)))
    as [H|H]; auto.
  destruct Hat as (sm & Hin & Hm); [lia|].
  pose proof markers_start_with_newline as Hall.
  apply Forall_app in Hall as [Hall _]. rewrite Forall_forall in Hall.
  destruct (Hall sm Hin) as [rest ->].
  pose proof (span_le Unicode.is_space None X) as Hn. fold n in Hn.
  rewrite <- (matches_at_skip ICASE (Lit NL) rest (firstn n X)) in Hm.
  rewrite firstn_skipn in Hm.
  rewrite length_firstn, Nat.min_l in Hm by assumption.
  rewrite (Hno _ Hin) in Hm; [discriminate|].
  rewrite length_skipn in Hle. lia.
Qed.

Lemma label_match prev X k :
  (forall c, prev = Some c -> Unicode.is_word U c = false) ->
  lstrip Unicode.is_space X <> [] ->
  m_atoms U ICASE_DOTALL 0 (hd [] patterns) (0, 0) prev (py "Ingredients: " ++ X) k
  = Some (k + 13 + length X,
          (k + 13 + span Unicode.is_space None X, k + 13 + length X)).
Proof.
  intros Hprev HX.
  unfold patterns, lits, separator_and_rest. cbn [hd map py app].
  cbn.
  replace (boundary U prev _) with true.
  2:{ unfold boundary. destruct prev as [c|]; [rewrite (Hprev c eq_refl)|];
      reflexivity. }
  pose proof (span_le Unicode.is_space None X) as Hn.
  rewrite lstrip_span in HX.
  erewrite (rep_greedy_max (cls_ok U ICASE_DOTALL Space)); [reflexivity|lia|].
  rewrite (span_ext (cls_ok U ICASE_DOTALL Space) Unicode.is_space) by reflexivity.
  set (n := span Unicode.is_space None X) in *.
  erewrite (rep_greedy_max (cls_ok U ICASE_DOTALL Any)).
  - reflexivity.
  - rewrite span_all by reflexivity.
    destruct (skipn n X); [congruence|simpl; lia].
  - rewrite span_all by reflexivity. rewrite length_skipn.
    f_equal. f_equal; [|f_equal]; lia.
Qed.

Lemma label_search prefix X :
  (forall i, i < length prefix ->
     matches_at ICASE_DOTALL (hd [] patterns) (prefix ++ py "Ingredients: " ++ X) i = false) ->
  (forall c, last_char prefix = Some c -> Unicode.is_word U c = false) ->
  lstrip Unicode.is_space X <> [] ->
  exists m,
    Re.search U ICASE_DOTALL (hd [] patterns) (prefix ++ py "Ingredients: " ++ X) = Some m /\
    group1 m (prefix ++ py "Ingredients: " ++ X) = lstrip Unicode.is_space X.
Proof.
  intros Hfirst Hlast HX.
  set (T := prefix ++ py "Ingredients: " ++ X) in *.
  set (k := length prefix).
  set (n := span Unicode.is_space None X).
  pose proof (span_le Unicode.is_space None X) as Hn. fold n in Hn.
  exists {| m_start := 0 + k; m_end := k + 13 + length X;
            m_span1 := (k + 13 + n, k + 13 + length X) |}.
  split.
  - apply search_from_found.
    + unfold T, k. rewrite length_app. lia.
    + unfold T at 1 2. rewrite prev_at_app by (unfold k; lia).
      replace k with (length prefix + 0) at 2 by (unfold k; lia).
      rewrite skipn_app_exact. cbn [skipn].
      now apply label_match.
    + intros j Hj. specialize (Hfirst j Hj). unfold matches_at, match_at in Hfirst.
      cbn [Nat.add].
      now destruct (m_atoms U ICASE_DOTALL 0 (hd [] patterns) (0, 0)
                      (prev_at None T j) (skipn j T) j).
  - unfold group1. cbn [m_span1 fst snd].
    replace (k + 13 + length X - (k + 13 + n)) with (length X - n) by lia.
    unfold T. rewrite app_assoc.
    replace (k + 13 + n) with (length (prefix ++ py "Ingredients: ") + n)
      by (rewrite length_app; reflexivity).
    rewrite skipn_app_exact, lstrip_span. fold n.
    rewrite <- (length_skipn n X). apply firstn_all.
Qed.

(** C2, as the script has it. For a text that is a prefix, then
    "Ingredients: ", then a continuation X: when the first label pattern
    matches nowhere inside the prefix, the prefix is empty or ends with a
    character that is not a word character, X contains no stop marker
    and the normalization of X is not empty, the inline extractor returns
    the normalization of X. *)
Theorem inline_returns_normalized_continuation :
  forall prefix X,
    (forall i, i < length prefix ->
       matches_at ICASE_DOTALL (hd [] patterns) (prefix ++ py "Ingredients: " ++ X) i
       = false) ->
    (forall c, last_char prefix = Some c -> Unicode.is_word U c = false) ->
    (forall sm, In sm STOP_MARKERS -> no_match ICASE sm X) ->
    clean_ingredients_string X <> [] ->
    extract_inline_ingredients (prefix ++ py "Ingredients: " ++ X)
    = Some (clean_ingredients_string X).
Proof.
  intros prefix X Hfirst Hlast Hstop Hclean.
  assert (HX : lstrip Unicode.is_space X <> []).
  { intros H. apply Hclean. rewrite <- clean_lstrip, H. reflexivity. }
  destruct (label_search prefix X Hfirst Hlast HX) as (m & Hm & Hg).
  unfold extract_inline_ingredients.
  replace (truthy (prefix ++ py "Ingredients: " ++ X)) with true
    by (destruct prefix; reflexivity).
  cbn [negb].
  change patterns with (hd [] patterns :: tl patterns).
  cbn [inline_loop]. rewrite Hm. cbv zeta. rewrite Hg.
  rewrite (no_marker_no_cut X Hstop), firstn_all, clean_lstrip.
  apply truthy_nonempty in Hclean. now rewrite Hclean.
Qed.

(** ** The scenarios of the specification *)

Example scenario_inline :
  extract_inline_ingredients
    (py "Ingredientes: Aqua, Glycerin.\nModo de empleo: aplicar.")
  = Some (py "Aqua, Glycerin").
Proof. vm_compute. reflexivity. Qed.

Example scenario_table :
  extract_table_ingredients
    (py "INGREDIENTES/INGREDIENTS (INCI)\nAqua\nGlycerin\nTotal 100%")
  = Some (py "Aqua, Glycerin").
Proof. vm_compute. reflexivity. Qed.

Example scenario_empty :
  extract_inline_ingredients [] = None /\ extract_table_ingredients [] = None.
Proof. split; reflexivity. Qed.

Example marker_inside_line :
  extract_inline_ingredients (py "Ingredients: Aqua, visit www.example.com")
  = Some (py "Aqua, visit www.example.com") /\
  extract_inline_ingredients (py "Ingredients:\nwww.example.com")
  = Some (py "www.example.com") /\
  extract_inline_ingredients (py "Ingredients: Aqua\nwww.example.com")
  = Some (py "Aqua").
Proof. repeat split; vm_compute; reflexivity. Qed.

(** ** Evaluating the side conditions on a given text *)

Lemma search_start_leftmost fl p text i :
  option_map m_start (Re.search U fl p text) = Some i -> leftmost fl p text i.
Proof.
  destruct (Re.search U fl p text) as [m|] eqn:E; simpl; try discriminate.
  intros H. injection H as <-.
  destruct (search_some fl p text m E) as (Hle & Hat & Hlt).
  repeat split; auto. unfold matches_at. now rewrite Hat.
Qed.

Lemma search_none_no_match fl p text :
  Re.search U fl p text = None -> no_match fl p text.
Proof. intros H. exact (proj1 (search_none fl p text) H). Qed.

Lemma below_by_forallb (f : nat -> bool) n :
  forallb (fun i => negb (f i)) (seq 0 n) = true ->
  forall i, i < n -> f i = false.
Proof.
  intros H i Hi. rewrite forallb_forall in H.
  apply negb_true_iff, H, in_seq. lia.
Qed.

Lemma all_by_forallb {A} (f : A -> bool) (P : A -> Prop) l :
  (forall a, f a = true -> P a) ->
  forallb f l = true -> forall a, In a l -> P a.
Proof.
  intros Hf H a Ha. rewrite forallb_forall in H. auto.
Qed.

(** ** Further properties of the normalizer *)

Lemma lstrip_nil d s : lstrip d s = [] <-> forallb d s = true.
Proof.
  induction s as [|c r IH]; simpl; [tauto|].
  destruct (d c); simpl; [exact IH|].
  split; discriminate.
Qed.

Lemma lstrip_keeps d s : forallb d (lstrip d s) = true -> lstrip d s = [].
Proof.
  intros H. destruct (lstrip d s) as [|c r] eqn:E; auto.
  apply lstrip_head in E. simpl in H. rewrite E in H. discriminate.
Qed.

Lemma forallb_rev {A} (f : A -> bool) l : forallb f (rev l) = forallb f l.
Proof.
  induction l as [|a l IH]; simpl; auto.
  rewrite forallb_app, IH. simpl. rewrite andb_true_r. apply andb_comm.
Qed.

Lemma strip_by_nil d s : strip_by d s = [] <-> forallb d s = true.
Proof.
  unfold strip_by, rstrip. rewrite <- lstrip_nil. split.
  - intros H. apply (f_equal (@rev char)) in H. rewrite rev_involutive in H.
    simpl in H. apply lstrip_nil in H. rewrite forallb_rev in H.
    now apply lstrip_keeps.
  - intros H. now rewrite H.
Qed.

Lemma lstrip_suffix d s : exists pre, s = pre ++ lstrip d s.
Proof.
  induction s as [|c r [pre IH]]; simpl.
  - now exists [].
  - destruct (d c).
    + exists (c :: pre). simpl. now rewrite <- IH.
    + now exists [].
Qed.

Lemma rstrip_prefix d s : exists post, s = rstrip d s ++ post.
Proof.
  unfold rstrip. destruct (lstrip_suffix d (rev s)) as [pre H].
  exists (rev pre). rewrite <- rev_app_distr, <- H. now rewrite rev_involutive.
Qed.

Lemma strip_by_infix d s : infix (strip_by d s) s.
Proof.
  unfold strip_by.
  destruct (lstrip_suffix d s) as [pre H].
  destruct (rstrip_prefix d (lstrip d s)) as [post H'].
  exists pre, post. now rewrite <- H'.
Qed.

Lemma infix_length a b : infix a b -> length a <= length b.
Proof.
  intros (pre & post & ->). rewrite !length_app. lia.
Qed.

Lemma infix_trans a b c : infix a b -> infix b c -> infix a c.
Proof.
  intros (p1 & q1 & ->) (p2 & q2 & ->).
  exists (p2 ++ p1), (q1 ++ q2). now rewrite <- !app_assoc.
Qed.

Lemma infix_refl a : infix a a.
Proof. exists [], []. now rewrite app_nil_r. Qed.

Lemma infix_firstn n s : infix (firstn n s) s.
Proof. exists [], (skipn n s). simpl. now rewrite firstn_skipn. Qed.

Lemma infix_skipn n s : infix (skipn n s) s.
Proof. exists (firstn n s), []. now rewrite app_nil_r, firstn_skipn. Qed.

Lemma infix_forallb (f : char -> bool) a b :
  infix a b -> forallb f b = true -> forallb f a = true.
Proof.
  intros (pre & post & ->). rewrite !forallb_app.
  intros H. apply andb_true_iff in H as [_ H]. now apply andb_true_iff in H as [H _].
Qed.

Lemma squeeze_length b s : length (squeeze b s) <= length s.
Proof.
  revert b. induction s as [|c r IH]; intros b; simpl; auto.
  destruct (Unicode.is_space c).
  - destruct b; simpl; specialize (IH true); lia.
  - simpl. specialize (IH false). lia.
Qed.

Lemma squeeze_forallb (d : char -> bool) b s :
  d SP = true ->
  forallb (fun c => Unicode.is_space c || d c) s = true ->
  forallb d (squeeze b s) = true.
Proof.
  intros Hsp. revert b. induction s as [|c r IH]; intros b; simpl; auto.
  intros H. apply andb_true_iff in H as [Hc Hr].
  destruct (Unicode.is_space c); simpl in *.
  - destruct b; simpl; rewrite ?Hsp; simpl; auto.
  - rewrite Hc. simpl. auto.
Qed.

Lemma squeeze_forallb_inv (d : char -> bool) b s :
  forallb d (squeeze b s) = true ->
  forallb (fun c => Unicode.is_space c || d c) s = true.
Proof.
  revert b. induction s as [|c r IH]; intros b; simpl; auto.
  destruct (Unicode.is_space c); simpl.
  - destruct b; simpl; [apply IH|].
    intros H. apply andb_true_iff in H as [_ H]. now apply IH in H.
  - intros H. apply andb_true_iff in H as [Hc H]. rewrite Hc. now apply IH in H.
Qed.

Lemma boundary_char_space c :
  Unicode.is_space c || boundary_char c
  = Unicode.is_space c || mem_char (py ";,.") c.
Proof.
  unfold boundary_char, mem_char. simpl.
  destruct (N.eqb_spec c 32%N) as [->|_]; [reflexivity|].
  destruct (N.eqb_spec c 9%N) as [->|_]; [reflexivity|].
  destruct (N.eqb_spec c NL) as [->|_]; [reflexivity|].
  destruct (N.eqb_spec c 13%N) as [->|_]; [reflexivity|].
  reflexivity.
Qed.

Lemma forallb_pointwise {A} (f g : A -> bool) l :
  (forall a, f a = g a) -> forallb f l = forallb g l.
Proof.
  intros H. induction l as [|a l IH]; simpl; auto. now rewrite H, IH.
Qed.

Lemma squeezed_space b s c :
  squeezed b s = true -> In c s -> Unicode.is_space c = true -> c = SP.
Proof.
  revert b. induction s as [|x r IH]; intros b Hs Hin Hc; [destruct Hin|].
  simpl in Hs. destruct Hin as [->|Hin].
  - rewrite Hc in Hs. apply andb_true_iff in Hs as [Hs _].
    apply andb_true_iff in Hs as [Hs _]. now apply N.eqb_eq.
  - destruct (Unicode.is_space x).
    + apply andb_true_iff in Hs as [_ Hs]. eapply IH; eassumption.
    + eapply IH; eassumption.
Qed.

Lemma squeezed_no_pair b pre x y post :
  squeezed b (pre ++ x :: y :: post) = true ->
  Unicode.is_space x = true -> Unicode.is_space y = false.
Proof.
  revert b. induction pre as [|c pre IH]; intros b; simpl.
  - intros H Hx. rewrite Hx in H.
    apply andb_true_iff in H as [_ H].
    destruct (Unicode.is_space y); auto.
    rewrite andb_false_r in H. discriminate.
  - destruct (Unicode.is_space c).
    + intros H. apply andb_true_iff in H as [_ H]. now apply (IH true).
    + apply IH.
Qed.

Lemma clean_length s : length (clean_ingredients_string s) <= length s.
Proof.
  rewrite clean_squeeze. unfold strip_chars.
  pose proof (infix_length _ _ (strip_by_infix (mem_char (py " \t\n\r;,."))
                                 (squeeze false s))).
  pose proof (squeeze_length false s). lia.
Qed.

(** X1. The normalized string has no whitespace but single spaces, no two of
    them side by side, and neither begins nor ends with a space, a tab, a
    newline, a carriage return, a semicolon, a comma or a period. *)
Theorem normalized_shape :
  forall s,
    (forall c, In c (clean_ingredients_string s) ->
               Unicode.is_space c = true -> c = SP) /\
    (forall pre x y post,
       clean_ingredients_string s = pre ++ x :: y :: post ->
       Unicode.is_space x = true -> Unicode.is_space y = false) /\
    (forall c rest, clean_ingredients_string s = c :: rest ->
                    boundary_char c = false) /\
    (forall pre c, clean_ingredients_string s = pre ++ [c] ->
                   boundary_char c = false).
Proof.
  intros s.
  assert (Hsq : squeezed false (clean_ingredients_string s) = true).
  { rewrite clean_squeeze. apply squeezed_strip_by, squeeze_squeezed. }
  assert (Hl : lstrip boundary_char (clean_ingredients_string s)
               = clean_ingredients_string s).
  { rewrite clean_squeeze. unfold strip_chars, strip_by.
    apply lstrip_rstrip_fix, lstrip_idem. }
  assert (Hr : lstrip boundary_char (rev (clean_ingredients_string s))
               = rev (clean_ingredients_string s)).
  { rewrite clean_squeeze. unfold strip_chars, strip_by, rstrip.
    rewrite rev_involutive. apply lstrip_idem. }
  split; [|split; [|split]].
  - intros c. now apply (squeezed_space false).
  - intros pre x y post E. rewrite E in Hsq.
    now apply (squeezed_no_pair false pre x y post).
  - intros c rest E. rewrite E in Hl. now apply lstrip_head in Hl.
  - intros pre c E. rewrite E, rev_app_distr in Hr.
    change (rev [c] ++ rev pre) with (c :: rev pre) in Hr.
    now apply lstrip_head in Hr.
Qed.

(** X2. The normalizer never lengthens a string, and what it returns is empty
    exactly when every character of the string is whitespace, a
    semicolon, a comma or a period. *)
Theorem normalized_empty_iff :
  forall s,
    length (clean_ingredients_string s) <= length s /\
    (clean_ingredients_string s = [] <->
     forallb (fun c => Unicode.is_space c || mem_char (py ";,.") c) s = true).
Proof.
  intros s. rewrite clean_squeeze. unfold strip_chars. split.
  - pose proof (clean_length s) as H. now rewrite clean_squeeze in H.
  - change (mem_char (py " \t\n\r;,.")) with boundary_char.
    rewrite strip_by_nil.
    rewrite <- (forallb_pointwise _ _ s boundary_char_space).
    split.
    + apply squeeze_forallb_inv.
    + now apply squeeze_forallb.
Qed.

(** ** Further properties of the inline extractor *)

Lemma group1_infix m text : infix (group1 m text) text.
Proof.
  unfold group1. eapply infix_trans; [apply infix_firstn | apply infix_skipn].
Qed.

(** X3. A string returned by the inline extractor is the normalization of a
    substring of the text, and is not longer than the text. *)
Theorem inline_result_from_substring :
  forall text s,
    extract_inline_ingredients text = Some s ->
    exists w,
      infix w text /\ s = clean_ingredients_string w /\ length s <= length text.
Proof.
  intros text s H. unfold extract_inline_ingredients in H.
  destruct (negb (truthy text)); try discriminate.
  apply inline_loop_some in H as (pat & m & _ & _ & -> & _).
  set (w := firstn (cut_position ICASE STOP_MARKERS (group1 m text)) (group1 m text)).
  assert (Hw : infix w text)
    by (eapply infix_trans; [apply infix_firstn | apply group1_infix]).
  exists w. repeat split; auto.
  pose proof (clean_length w). pose proof (infix_length _ _ Hw). lia.
Qed.

Lemma literal_prefix_match fl fl' cs rest g g' prev s pos pos' :
  IGNORECASE fl = IGNORECASE fl' ->
  is_some (m_atoms U fl 0 (map (fun c => Chr (Lit c)) cs ++ rest) g prev s pos) = true ->
  is_some (m_atoms U fl' 0 (map (fun c => Chr (Lit c)) cs) g' prev s pos') = true.
Proof.
  intros Hfl. revert prev s pos pos'.
  induction cs as [|c cs IH]; intros prev s pos pos'; simpl; auto.
  destruct s as [|x s]; auto.
  rewrite Hfl. destruct (Unicode.lit_match U (IGNORECASE fl') c x); auto.
  apply IH.
Qed.

Lemma patterns_start_with_ingredient :
  Forall (fun pat => exists rest, pat = WordB :: lits "ingredient" ++ rest) patterns.
Proof.
  apply Forall_forall. intros pat Hpat. exists (skipn 11 pat).
  unfold patterns in Hpat. cbn [In] in Hpat.
  repeat destruct Hpat as [<-|Hpat]; try (vm_compute; reflexivity).
  destruct Hpat.
Qed.

(** X4. The inline extractor signals absence for every text in which the
    letters "ingredient" occur nowhere, whatever their case: each of the
    four label patterns starts with them. *)
Theorem inline_needs_label :
  forall text,
    Re.search U ICASE (lits "ingredient") text = None ->
    extract_inline_ingredients text = None.
Proof.
  intros text Hno. unfold extract_inline_ingredients.
  destruct (negb (truthy text)); auto.
  apply inline_loop_none_of. intros pat Hpat.
  pose proof patterns_start_with_ingredient as Hall.
  rewrite Forall_forall in Hall. destruct (Hall pat Hpat) as [rest ->].
  apply search_none. intros k Hk.
  pose proof (proj1 (search_none ICASE _ _) Hno k Hk) as Hk'.
  unfold matches_at, match_at in *. simpl m_atoms at 1.
  destruct (boundary U (prev_at None text k) (skipn k text)); auto.
  destruct (is_some (m_atoms U ICASE_DOTALL 0 (lits "ingredient" ++ rest) (0, 0)
                       (prev_at None text k) (skipn k text) k)) eqn:E; auto.
  apply (literal_prefix_match ICASE_DOTALL ICASE _ _ _ (0, 0) _ _ _ k) in E;
    [|reflexivity].
  unfold lits in Hk'. rewrite E in Hk'. discriminate.
Qed.

(** ** Further properties of the tabular extractor *)

Lemma infix_app_l pre a b : infix a b -> infix a (pre ++ b).
Proof.
  intros (p & q & ->). exists (pre ++ p), q. now rewrite <- app_assoc.
Qed.

Lemma without_row_number_infix line : infix (without_row_number line) line.
Proof.
  unfold without_row_number.
  destruct (match_at no_flags row_number_prefix line 0) as [[e g]|].
  - apply infix_skipn.
  - apply infix_refl.
Qed.

Lemma strip_infix s : infix (strip s) s.
Proof. apply strip_by_infix. Qed.

Lemma extract_name_infix line name :
  _extract_name_from_line line = Some name -> infix name line.
Proof.
  unfold _extract_name_from_line.
  destruct (negb (truthy (strip line))); try discriminate.
  cbv zeta. rewrite sub_row_number.
  pose proof (without_row_number_infix line) as Hrow.
  repeat match goal with
         | |- context [match ?x with Some _ => _ | None => _ end] => destruct x
         end;
    intros H; injection H as <-;
    (eapply infix_trans; [apply strip_infix|]); auto;
    (eapply infix_trans; [apply infix_firstn|]); auto.
Qed.

Lemma truthy_false_nil s : negb (truthy s) = true <-> s = [].
Proof. destruct s; simpl; split; congruence. Qed.

(** X5. The name of a row is absent exactly for a line of whitespace only.
    Otherwise it is a substring of the line, without whitespace at its
    ends: the extractor adds no character and reorders none. *)
Theorem row_name_from_line :
  forall line,
    (_extract_name_from_line line = None <-> blank line = true) /\
    (forall name, _extract_name_from_line line = Some name ->
                  infix name line /\ strip name = name).
Proof.
  intros line. split.
  - unfold blank. rewrite <- (strip_by_nil Unicode.is_space line).
    fold (strip line). rewrite <- truthy_false_nil.
    unfold _extract_name_from_line.
    destruct (negb (truthy (strip line))).
    + tauto.
    + cbv zeta.
      repeat match goal with
             | |- context [match ?x with Some _ => _ | None => _ end] => destruct x
             end; split; discriminate.
  - intros name H. split.
    + now apply extract_name_infix.
    + now apply (extract_name_stripped line).
Qed.

Lemma one_line_rev s : one_line (rev s) = one_line s.
Proof. apply forallb_rev. Qed.

Lemma splitlines_go_lines n :
  forall s cur,
    length s <= n ->
    forall l, In l (splitlines_go cur s) ->
      infix l (rev cur ++ s) /\ (one_line cur = true -> one_line l = true).
Proof.
  induction n as [|n IH]; intros s cur Hn l Hl.
  - destruct s; [|simpl in Hn; lia]. simpl in Hl.
    destruct cur as [|x cur]; [destruct Hl|].
    destruct Hl as [<-|[]]. split.
    + rewrite app_nil_r. apply infix_refl.
    + now rewrite one_line_rev.
  - destruct s as [|c r].
    + simpl in Hl. destruct cur as [|x cur]; [destruct Hl|].
      destruct Hl as [<-|[]]. split.
      * rewrite app_nil_r. apply infix_refl.
      * now rewrite one_line_rev.
    + simpl in Hn. cbn [splitlines_go] in Hl.
      destruct (Unicode.is_linebreak c) eqn:Ec.
      * destruct Hl as [<-|Hl].
        { split.
          - exists [], (c :: r). reflexivity.
          - now rewrite one_line_rev. }
        destruct r as [|d r']; [destruct Hl|].
        destruct ((c =? 13)%N && (d =? 10)%N).
        { simpl in Hn. destruct (IH r' [] ltac:(lia) l Hl) as [Hi Ho].
          split; [|auto].
          apply infix_app_l. apply (infix_app_l [c; d]). exact Hi. }
        { destruct (IH (d :: r') [] ltac:(simpl in *; lia) l Hl) as [Hi Ho].
          split; [|auto].
          apply infix_app_l. apply (infix_app_l [c]). exact Hi. }
      * destruct (IH r (c :: cur) ltac:(lia) l Hl) as [Hi Ho]. split.
        { simpl in Hi. now rewrite <- app_assoc in Hi. }
        { intros Hc. apply Ho. unfold one_line. simpl. rewrite Ec. exact Hc. }
Qed.

Lemma splitlines_lines s l :
  In l (splitlines s) -> infix l s /\ one_line l = true.
Proof.
  intros H. destruct (splitlines_go_lines (length s) s [] (le_n _) l H) as [Hi Ho].
  split; auto.
Qed.

Lemma line_step_adds hpat all_names raw_line :
  exists added,
    line_step hpat all_names raw_line = all_names ++ added /\
    Forall (fun n => infix n raw_line) added.
Proof.
  unfold line_step.
  assert (Hnone : exists added, all_names = all_names ++ added /\
                                Forall (fun n => infix n raw_line) added)
    by (exists []; split; [now rewrite app_nil_r | constructor]).
  destruct (negb (truthy (strip raw_line))); auto.
  destruct (is_some (Re.search U ICASE hpat (strip raw_line))); auto.
  destruct (is_some (Re.match_ U ICASE inci_column_label (strip raw_line))); auto.
  destruct (_extract_name_from_line (strip raw_line)) as [name|] eqn:E; auto.
  destruct (negb (truthy name)); auto.
  destruct (length name <? 3); auto.
  exists [name]. split; auto. constructor; auto.
  eapply infix_trans; [eapply extract_name_infix; eassumption | apply strip_infix].
Qed.

Lemma fold_line_step_adds hpat lines all_names :
  exists added,
    fold_left (line_step hpat) lines all_names = all_names ++ added /\
    Forall (fun n => exists raw, In raw lines /\ infix n raw) added.
Proof.
  revert all_names. induction lines as [|raw lines IH]; intros all_names; simpl.
  - exists []. split; [now rewrite app_nil_r | constructor].
  - destruct (line_step_adds hpat all_names raw) as (a1 & -> & H1).
    destruct (IH (all_names ++ a1)) as (a2 & -> & H2).
    exists (a1 ++ a2). split; [now rewrite app_assoc|].
    apply Forall_app. split.
    + eapply Forall_impl; [|exact H1]. intros n Hn. exists raw. auto.
    + eapply Forall_impl; [|exact H2]. intros n (r & Hr & Hn). exists r. auto.
Qed.

(** A name from the text: a substring of it, inside one line. *)
Lemma header_step_adds text all_names hpat :
  exists added,
    header_step text all_names hpat = all_names ++ added /\
    Forall (fun n => exists raw,
                In raw (splitlines
                          (firstn (cut_position ICASE stop_pats
                                     (skipn (match Re.search U ICASE hpat text with
                                             | Some m => m_end m
                                             | None => 0
                                             end) text))
                                  (skipn (match Re.search U ICASE hpat text with
                                          | Some m => m_end m
                                          | None => 0
                                          end) text))) /\
                infix n raw) added.
Proof.
  unfold header_step. destruct (Re.search U ICASE hpat text) as [m|].
  - cbv zeta. apply fold_line_step_adds.
  - exists []. split; [now rewrite app_nil_r | constructor].
Qed.

Lemma header_step_from_text text all_names hpat :
  Forall (fun n => infix n text /\ one_line n = true) all_names ->
  Forall (fun n => infix n text /\ one_line n = true) (header_step text all_names hpat).
Proof.
  intros H. destruct (header_step_adds text all_names hpat) as (added & -> & Ha).
  apply Forall_app. split; auto.
  eapply Forall_impl; [|exact Ha]. intros n (raw & Hraw & Hn).
  apply splitlines_lines in Hraw as [Hi Ho]. split.
  - eapply infix_trans; [exact Hn|]. eapply infix_trans; [exact Hi|].
    eapply infix_trans; [apply infix_firstn | apply infix_skipn].
  - eapply infix_forallb; eassumption.
Qed.

Lemma collect_names_from_text text :
  Forall (fun n => infix n text /\ one_line n = true) (collect_names text).
Proof.
  unfold collect_names. apply fold_left_inv; auto.
  intros. now apply header_step_from_text.
Qed.

(** X7. A string returned by the tabular extractor is the ", "-join of names
    that differ from one another; each name is a substring of the text,
    lies inside one line and has at least three characters. *)
Theorem table_names_from_lines :
  forall text s,
    extract_table_ingredients text = Some s ->
    exists names,
      s = join (py ", ") names /\ NoDup names /\
      Forall (fun n => infix n text /\ one_line n = true /\ 3 <= length n) names.
Proof.
  intros text s. unfold extract_table_ingredients.
  destruct (negb (truthy text)); try discriminate.
  pose proof (collect_names_from_text text) as H1.
  pose proof (collect_names_kept text) as H2.
  destruct (collect_names text) as [|n r] eqn:E; try discriminate.
  intros H. injection H as <-.
  exists (dedup (n :: r)). split; auto. split; [apply dedup_NoDup|].
  apply Forall_forall. intros x Hx. apply (proj1 (dedup_In _ _)) in Hx.
  rewrite Forall_forall in H1, H2.
  destruct (H1 x Hx) as [Hi Ho]. destruct (H2 x Hx) as [Hl _]. auto.
Qed.

Lemma collect_names_no_header text hs acc :
  (forall h, In h hs -> Re.search U ICASE h text = None) ->
  fold_left (header_step text) hs acc = acc.
Proof.
  revert acc. induction hs as [|h hs IH]; intros acc H; simpl; auto.
  unfold header_step at 2. rewrite (H h) by (simpl; auto).
  apply IH. intros h' Hh'. apply H. simpl. auto.
Qed.

(** X8. The tabular extractor signals absence for every text in which none of
    the four headers occurs. *)
Theorem table_needs_header :
  forall text,
    (forall h, In h headers -> Re.search U ICASE h text = None) ->
    extract_table_ingredients text = None.
Proof.
  intros text H. unfold extract_table_ingredients, collect_names.
  rewrite (collect_names_no_header text headers [] H).
  now destruct (negb (truthy text)).
Qed.

(** X9. For a header that occurs in the text, the names it adds come after
    the names collected so far and from the lines of the block between
    the end of the header's first match and the cut position; the cut
    position is the leftmost position of the block at which a
    section-end marker matches, the same for every order of the
    markers. *)
Theorem table_block_cut_at_earliest_marker :
  forall text hpat m all_names,
    Re.search U ICASE hpat text = Some m ->
    let block := skipn (m_end m) text in
    let cut := cut_position ICASE stop_pats block in
    (exists added,
       header_step text all_names hpat = all_names ++ added /\
       Forall (fun n => exists raw,
                   In raw (splitlines (firstn cut block)) /\ infix n raw) added) /\
    cut <= length block /\
    (forall sp i, In sp stop_pats -> i < cut -> matches_at ICASE sp block i = false) /\
    (cut < length block ->
     exists sp, In sp stop_pats /\ matches_at ICASE sp block cut = true) /\
    (forall markers, Permutation markers stop_pats ->
                     cut_position ICASE markers block = cut).
Proof.
  intros text hpat m all_names Hm block cut.
  destruct (cut_position_spec ICASE block stop_pats) as (Hle & Hbefore & Hat).
  split; [|split; [|split; [|split]]]; auto.
  - pose proof (header_step_adds text all_names hpat) as H.
    rewrite Hm in H. exact H.
  - intros markers Hp. now apply cut_position_perm.
Qed.

Lemma dedup_length l : length (dedup l) <= length l.
Proof.
  induction l as [|x l IH] using rev_ind; auto.
  rewrite dedup_snoc. destruct (in_dec pystr_eq_dec x l);
    rewrite !length_app; simpl; lia.
Qed.

Lemma dedup_NoDup_fix l : NoDup l -> dedup l = l.
Proof.
  induction l as [|x l IH] using rev_ind; auto.
  intros H. apply NoDup_remove in H as [Hl Hx]. rewrite app_nil_r in *.
  rewrite dedup_snoc. destruct (in_dec pystr_eq_dec x l); [tauto|].
  now rewrite IH.
Qed.

(** X11. The loop over [seen] and [unique] returns a list of different names
    as it is, changes nothing when run on its own result, and never
    returns more names than it receives. *)
Theorem dedup_keeps_distinct_names :
  forall l,
    (NoDup l -> dedup l = l) /\
    dedup (dedup l) = dedup l /\
    length (dedup l) <= length l.
Proof.
  intros l. split; [apply dedup_NoDup_fix|]. split.
  - apply dedup_NoDup_fix, dedup_NoDup.
  - apply dedup_length.
Qed.

(** ** Further properties of the text recovery and of the batch *)

Lemma strip_blank s : blank s = true -> strip s = [].
Proof. intros H. now apply strip_by_nil. Qed.

Lemma join_blank sep parts :
  blank sep = true ->
  Forall (fun x => blank x = true) parts -> blank (join sep parts) = true.
Proof.
  intros Hsep. induction 1 as [|x rest Hx Hrest IH]; auto.
  destruct rest as [|y rest]; auto.
  change (join sep (x :: y :: rest)) with (x ++ sep ++ join sep (y :: rest)).
  unfold blank in *. rewrite !forallb_app. now rewrite Hx, Hsep, IH.
Qed.

(** X12. A document whose pages have no text, or whitespace only, has the
    empty string as its native text, so the OCR path is taken; when the
    page images read as whitespace too, both extractors are called on the
    empty string and the result is absence. *)
Theorem blank_document_goes_to_ocr :
  forall path log,
    (forall p, In p (page_texts sv path) -> blank (or_empty p) = true) ->
    native_text path = [] /\
    fst (extract_ingredients_from_pdf path log) = first_found (ocr_text path) /\
    (exists heuristics,
       snd (extract_ingredients_from_pdf path log)
       = log ++ PdfReader path :: ocr_calls path
             ++ InlineExtractor (ocr_text path) :: heuristics) /\
    ((forall img, In img (ocr_images path) ->
                  blank (image_to_string sv img) = true) ->
     extract_ingredients_from_pdf path log
     = (None,
        log ++ PdfReader path :: ocr_calls path
            ++ [InlineExtractor []; TabularExtractor []])).
Proof.
  intros path log Hpages.
  assert (Hn : native_text path = []).
  { unfold native_text. apply strip_blank, join_blank; [reflexivity|].
    apply Forall_forall. intros x Hx. apply in_map_iff in Hx as (p & <- & Hp). auto. }
  split; auto.
  rewrite run_orchestrator. cbv zeta. rewrite Hn.
  change (length (@nil char) <? 40) with true. cbv iota. unfold first_found.
  split; [|split].
  - now destruct (extract_inline_ingredients (ocr_text path)).
  - destruct (extract_inline_ingredients (ocr_text path)).
    + exists []. simpl snd. repeat (rewrite <- ?app_assoc; simpl). reflexivity.
    + exists [TabularExtractor (ocr_text path)]. simpl snd.
      repeat (rewrite <- ?app_assoc; simpl). reflexivity.
  - intros Himgs.
    assert (Ho : ocr_text path = []).
    { unfold ocr_text. apply strip_blank, join_blank; [reflexivity|].
      apply Forall_forall. intros x Hx. apply in_map_iff in Hx as (img & <- & Hi).
      auto. }
    rewrite Ho. change (extract_inline_ingredients []) with (@None pystr).
    change (extract_table_ingredients []) with (@None pystr).
    repeat (rewrite <- ?app_assoc; simpl). reflexivity.
Qed.

(** X13. Text recovery calls the decoder once; the OCR path calls the
    rasterizer once, with the Poppler location as its only keyword
    argument, and then the OCR engine once for every page image, in the
    order of the pages. Both return a text without whitespace at its
    ends. *)
Theorem text_recovery_calls :
  forall path log,
    extract_text_from_pdf path log = (native_text path, log ++ [PdfReader path]) /\
    strip (native_text path) = native_text path /\
    extract_text_with_ocr path log
    = (ocr_text path,
       log ++ ConvertFromPath path [(py "poppler_path", POPLER_PATH)]
           :: map ImageToString
                (convert_from_path sv path [(py "poppler_path", POPLER_PATH)])) /\
    strip (ocr_text path) = ocr_text path.
Proof.
  intros path log. repeat split.
  - apply strip_idem.
  - apply run_text_with_ocr.
  - apply strip_idem.
Qed.

Lemma batch_loop_run pdf_paths records out :
  batch_loop pdf_paths records out
  = (records ++ map row_of pdf_paths, out ++ flat_map events_of pdf_paths).
Proof.
  revert records out.
  induction pdf_paths as [|pdf rest IH]; intros records out; simpl.
  - now rewrite !app_nil_r.
  - unfold in_batch.
    destruct (extract_ingredients_from_pdf (path_str pl pdf) []) as [r calls] eqn:E.
    rewrite IH. unfold row_of, events_of. rewrite E. simpl.
    now rewrite <- !app_assoc.
Qed.

(** X14. The batch returns one record for every path, in the order of the
    paths, also for a document without ingredients; the record of a
    document holds its file name and what the orchestrator returns for it
    alone. Before the calls of a document its line is printed, and the
    calls of one document end before the line of the next. A batch over
    two lists, one after the other, returns the records of the first
    followed by those of the second. *)
Theorem batch_one_record_per_document :
  forall pdf_paths out,
    build_ingredients_df pdf_paths out
    = (map row_of pdf_paths, out ++ flat_map events_of pdf_paths) /\
    length (fst (build_ingredients_df pdf_paths out)) = length pdf_paths /\
    forall more,
      fst (build_ingredients_df (pdf_paths ++ more) out)
      = fst (build_ingredients_df pdf_paths out)
        ++ fst (build_ingredients_df more out).
Proof.
  intros pdf_paths out. unfold build_ingredients_df.
  rewrite batch_loop_run. simpl. split; auto. split.
  - apply length_map.
  - intros more. rewrite !batch_loop_run. simpl. apply map_app.
Qed.

(** ** Rows without digits, and the merge over the headers *)

Lemma span_none ok hi s : Forall (fun c => ok c = false) s -> span ok hi s = 0.
Proof.
  intros H. destruct s as [|c s]; auto. simpl.
  inversion H as [|? ? Hc ?]; subst. now rewrite Hc.
Qed.

(** A pattern with an atom that needs a character of a class does not
    match a text without such a character. *)
Lemma m_atoms_needs_class fl floor k p g prev s pos :
  Exists (needs_class k) p ->
  Forall (fun c => cls_ok U fl k c = false) s ->
  m_atoms U fl floor p g prev s pos = None.
Proof.
  intros Hex. revert g prev s pos.
  induction Hex as [a p Ha|a p Hex IH]; intros g prev s pos Hs.
  - destruct a; simpl in Ha; try contradiction.
    + subst k0. simpl. destruct s as [|c s]; auto.
      inversion Hs as [|? ? Hc ?]; subst. now rewrite Hc.
    + destruct Ha as [-> Hlo]. simpl. apply rep_greedy_short.
      rewrite span_none by assumption. lia.
  - simpl. destruct a.
    + destruct s as [|c s]; auto.
      inversion Hs; subst. destruct (cls_ok U fl k0 c); auto.
    + apply rep_greedy_none
        with (Q := Forall (fun c => cls_ok U fl k c = false)); auto.
      intros c r H. now inversion H.
    + destruct prev; auto.
    + destruct (boundary U prev s); auto.
    + auto.
    + auto.
Qed.

Lemma search_needs_class fl k p text :
  Exists (needs_class k) p ->
  Forall (fun c => cls_ok U fl k c = false) text ->
  Re.search U fl p text = None.
Proof.
  intros Hex Hs. apply search_none. intros i Hi. unfold matches_at, match_at.
  rewrite (m_atoms_needs_class fl 0 k p); auto.
  apply Forall_forall. intros c Hc. rewrite Forall_forall in Hs. apply Hs.
  destruct (infix_skipn i text) as (pre & post & E).
  rewrite E. apply in_or_app. right. apply in_or_app. now left.
Qed.

(** X6. A row without a decimal digit has no row number, no CAS number and no
    quantity to cut at: unless it is blank, its name is the row, cut at
    the leftmost [c.s.p.] if there is one, without the whitespace at its
    ends. *)
Theorem row_without_digits :
  forall line,
    (forall c, In c line -> Unicode.is_decimal U c = false) ->
    blank line = false ->
    _extract_name_from_line line
    = Some (strip (match Re.search U ICASE csp_marker line with
                   | Some m => firstn (m_start m) line
                   | None => line
                   end)).
Proof.
  intros line Hd Hb.
  assert (Hs : Forall (fun c => cls_ok U no_flags Digit c = false) line)
    by (apply Forall_forall; exact Hd).
  unfold _extract_name_from_line.
  replace (negb (truthy (strip line))) with false.
  2:{ symmetry. apply not_true_is_false. intros H.
      apply truthy_false_nil in H. apply strip_by_nil in H.
      unfold blank in Hb. congruence. }
  cbv zeta. rewrite sub_row_number.
  assert (Hrow : without_row_number line = line).
  { unfold without_row_number, match_at.
    rewrite (m_atoms_needs_class no_flags 0 Digit); auto.
    unfold row_number_prefix. apply Exists_cons_tl, Exists_cons_tl, Exists_cons_hd.
    simpl. auto. }
  rewrite Hrow.
  rewrite (search_needs_class no_flags Digit cas_number line); auto.
  2:{ unfold cas_number. apply Exists_cons_tl, Exists_cons_hd. simpl. auto. }
  rewrite (search_needs_class no_flags Digit decimal_quantity line); auto.
  2:{ unfold decimal_quantity. apply Exists_cons_tl, Exists_cons_hd. simpl. auto. }
  now destruct (Re.search U ICASE csp_marker line).
Qed.

Lemma line_step_append hpat all_names raw_line :
  line_step hpat all_names raw_line = all_names ++ line_step hpat [] raw_line.
Proof.
  unfold line_step.
  destruct (negb (truthy (strip raw_line))); [now rewrite app_nil_r|].
  destruct (is_some (Re.search U ICASE hpat (strip raw_line))); [now rewrite app_nil_r|].
  destruct (is_some (Re.match_ U ICASE inci_column_label (strip raw_line)));
    [now rewrite app_nil_r|].
  destruct (_extract_name_from_line (strip raw_line)) as [name|];
    [|now rewrite app_nil_r].
  destruct (negb (truthy name)); [now rewrite app_nil_r|].
  destruct (length name <? 3); [now rewrite app_nil_r|reflexivity].
Qed.

Lemma fold_line_step_append hpat lines all_names :
  fold_left (line_step hpat) lines all_names
  = all_names ++ fold_left (line_step hpat) lines [].
Proof.
  revert all_names. induction lines as [|raw lines IH]; intros all_names; simpl.
  - now rewrite app_nil_r.
  - rewrite IH, (IH (line_step hpat [] raw)), line_step_append.
    now rewrite app_assoc.
Qed.

Lemma header_step_append text all_names hpat :
  header_step text all_names hpat = all_names ++ header_step text [] hpat.
Proof.
  unfold header_step. destruct (Re.search U ICASE hpat text).
  - cbv zeta. apply fold_line_step_append.
  - now rewrite app_nil_r.
Qed.

Lemma fold_header_step text hs all_names :
  fold_left (header_step text) hs all_names
  = all_names ++ flat_map (header_step text []) hs.
Proof.
  revert all_names. induction hs as [|h hs IH]; intros all_names; simpl.
  - now rewrite app_nil_r.
  - rewrite IH, header_step_append. now rewrite app_assoc.
Qed.

(** X10. The names of all the headers that occur in the text are merged: the
    accumulated names are those of the first header, then those of the
    second, and so on, and what a header adds does not depend on the
    names added before it. *)
Theorem table_headers_merged :
  forall text,
    collect_names text = flat_map (header_step text []) headers /\
    forall all_names hpat,
      header_step text all_names hpat = all_names ++ header_step text [] hpat.
Proof.
  intros text. split.
  - unfold collect_names. apply fold_header_step.
  - intros. apply header_step_append.
Qed.

End Script.

Arguments native_text {image} sv path.
Arguments ocr_text {image} sv path.
Arguments ocr_calls {image} sv path.
Arguments ocr_images {image} sv path.
Arguments build_ingredients_df U {image} sv pl pdf_paths.
Arguments row_of U {image} sv pl pdf.
Arguments events_of U {image} sv pl pdf.
Arguments extract_ingredients_from_pdf U {image} sv path.
Arguments recovered_text {image} sv path.
Arguments recovery_calls {image} sv path.

(** ** The claims on concrete documents *)

(** C1, amended, on the Spanish label of the specification, where the
    window is cut at the usage-instruction marker, and on a text whose
    first label has only a period before a warning marker: the first two
    patterns are skipped and the third gives the result. *)
Lemma inline_cut_witness :
  (exists before pat rest m,
     patterns = before ++ pat :: rest /\
     Re.search L1 ICASE_DOTALL pat
       (py "Ingredientes: Aqua, Glycerin.\nModo de empleo: aplicar.") = Some m /\
     py "Aqua, Glycerin"
     = clean_ingredients_string L1
         (firstn
            (cut_position L1 ICASE STOP_MARKERS
               (group1 m (py "Ingredientes: Aqua, Glycerin.\nModo de empleo: aplicar.")))
            (group1 m (py "Ingredientes: Aqua, Glycerin.\nModo de empleo: aplicar."))) /\
     py "Aqua, Glycerin" <> [] /\
     forall p, In p before ->
       cut_window L1 p (py "Ingredientes: Aqua, Glycerin.\nModo de empleo: aplicar.") = None \/
       cut_window L1 p (py "Ingredientes: Aqua, Glycerin.\nModo de empleo: aplicar.") = Some []) /\
  (cut_window L1 (nth 0 patterns []) (py "Ingredients: .\nwarning Ingredientes: Aqua") = Some [] /\
   cut_window L1 (nth 1 patterns []) (py "Ingredients: .\nwarning Ingredientes: Aqua") = None /\
   cut_window L1 (nth 2 patterns []) (py "Ingredients: .\nwarning Ingredientes: Aqua")
   = Some (py "Aqua") /\
   extract_inline_ingredients L1 (py "Ingredients: .\nwarning Ingredientes: Aqua")
   = Some (py "Aqua")).
Proof.
  split.
  - apply (proj1 (proj1 (inline_cut_at_earliest_stop_marker L1
             (py "Ingredientes: Aqua, Glycerin.\nModo de empleo: aplicar.")
             (py "Aqua, Glycerin")))).
    vm_compute. reflexivity.
  - split; [vm_compute; reflexivity|]. split; [vm_compute; reflexivity|].
    split; [vm_compute; reflexivity|].
    apply (proj2 (proj1 (inline_cut_at_earliest_stop_marker L1
             (py "Ingredients: .\nwarning Ingredientes: Aqua") (py "Aqua")))).
    exists (firstn 2 patterns), (nth 2 patterns []), (skipn 3 patterns).
    eexists. split; [reflexivity|]. split; [vm_compute; reflexivity|].
    split; [vm_compute; reflexivity|]. split; [discriminate|].
    intros p [<-|[<-|[]]]; [right|left]; vm_compute; reflexivity.
Defined.

(** C1 as stated fails: the first label matches, its window has the
    warning marker at position 1, the part of the window before the marker
    normalizes to the empty string, and the extractor goes on to the next
    patterns and returns text that stands after that marker. *)
Lemma inline_result_after_skipped_marker :
  option_map (fun m => group1 m (py "Ingredients: .\nwarning Ingredientes: Aqua"))
    (Re.search L1 ICASE_DOTALL (nth 0 patterns [])
       (py "Ingredients: .\nwarning Ingredientes: Aqua"))
  = Some (py ".\nwarning Ingredientes: Aqua") /\
  cut_position L1 ICASE STOP_MARKERS (py ".\nwarning Ingredientes: Aqua") = 1 /\
  existsb (fun sm => matches_at L1 ICASE sm (py ".\nwarning Ingredientes: Aqua") 1)
    STOP_MARKERS = true /\
  clean_ingredients_string L1 (firstn 1 (py ".\nwarning Ingredientes: Aqua")) = [] /\
  extract_inline_ingredients L1 (py "Ingredients: .\nwarning Ingredientes: Aqua")
  = Some (py "Aqua") /\
  py ".\nwarning Ingredientes: Aqua" = py ".\nwarning Ingredientes: " ++ py "Aqua".
Proof. repeat split; vm_compute; reflexivity. Qed.

(** C2, amended, on a label that follows a product name. *)
Lemma inline_continuation_witness :
  extract_inline_ingredients L1
    (py "Product X. " ++ py "Ingredients: " ++ py "Aqua, Glycerin.")
  = Some (clean_ingredients_string L1 (py "Aqua, Glycerin.")) /\
  clean_ingredients_string L1 (py "Aqua, Glycerin.") = py "Aqua, Glycerin".
Proof.
  split; [|vm_compute; reflexivity].
  apply (inline_returns_normalized_continuation L1 (py "Product X. ") (py "Aqua, Glycerin.")).
  - apply below_by_forallb. vm_compute. reflexivity.
  - intros c H. vm_compute in H. injection H as <-. reflexivity.
  - apply (all_by_forallb
             (fun sm => negb (is_some (Re.search L1 ICASE sm (py "Aqua, Glycerin."))))).
    + intros sm H. apply search_none_no_match.
      destruct (Re.search L1 ICASE sm (py "Aqua, Glycerin.")); [discriminate|reflexivity].
    + vm_compute. reflexivity.
  - vm_compute. discriminate.
Defined.

(** C2 as stated fails: a label inside the prefix takes the match, a label
    glued to a word is not a label, and a continuation that normalizes to
    the empty string gives absence. None of the continuations contains a
    stop marker. *)
Lemma inline_continuation_counterexample :
  (forallb (fun sm => negb (is_some (Re.search L1 ICASE sm (py "Glycerin"))))
     STOP_MARKERS = true /\
   extract_inline_ingredients L1
     (py "Key ingredients: Aqua. " ++ py "Ingredients: " ++ py "Glycerin")
   = Some (py "Aqua. Ingredients: Glycerin") /\
   clean_ingredients_string L1 (py "Glycerin") = py "Glycerin") /\
  (forallb (fun sm => negb (is_some (Re.search L1 ICASE sm (py "Aqua"))))
     STOP_MARKERS = true /\
   extract_inline_ingredients L1 (py "x" ++ py "Ingredients: " ++ py "Aqua") = None /\
   clean_ingredients_string L1 (py "Aqua") = py "Aqua") /\
  (extract_inline_ingredients L1 ([] ++ py "Ingredients: " ++ []) = None /\
   clean_ingredients_string L1 [] = []).
Proof. repeat split; vm_compute; reflexivity. Qed.

(** C3 on four rows, one for each case. *)
Lemma row_name_witness :
  _extract_name_from_line L1 (py "1. Aqua 7732-18-5 0.5") = Some (py "Aqua") /\
  _extract_name_from_line L1 (py "2. Glycerin 5.0") = Some (py "Glycerin") /\
  _extract_name_from_line L1 (py "3- Aqua c.s.p. 100") = Some (py "Aqua") /\
  _extract_name_from_line L1 (py "Parfum") = Some (py "Parfum").
Proof.
  pose proof (proj1 (row_name_priority L1)) as T.
  split; [|split; [|split]].
  - apply (proj1 (T (py "1. Aqua 7732-18-5 0.5") eq_refl) 4).
    apply search_start_leftmost. vm_compute. reflexivity.
  - apply (proj1 (proj2 (T (py "2. Glycerin 5.0") eq_refl))) with (i := 8).
    + apply search_none_no_match. vm_compute. reflexivity.
    + apply search_start_leftmost. vm_compute. reflexivity.
  - apply (proj1 (proj2 (proj2 (T (py "3- Aqua c.s.p. 100") eq_refl)))) with (i := 4).
    + apply search_none_no_match. vm_compute. reflexivity.
    + apply search_none_no_match. vm_compute. reflexivity.
    + apply search_start_leftmost. vm_compute. reflexivity.
  - apply (proj2 (proj2 (proj2 (T (py "Parfum") eq_refl)))).
    + apply search_none_no_match. vm_compute. reflexivity.
    + apply search_none_no_match. vm_compute. reflexivity.
    + apply search_none_no_match. vm_compute. reflexivity.
Defined.

(** C4 on a table in which the row of Aqua stands twice. *)
Lemma table_dedup_witness :
  collect_names L1
    (py "Lista de ingredientes\nAqua 7732-18-5 70.0\nGlycerin\nAqua 7732-18-5 5.0\nTotal 100")
  = [py "Aqua"; py "Glycerin"; py "Aqua"] /\
  In (py "Glycerin")
     (dedup (collect_names L1
       (py "Lista de ingredientes\nAqua 7732-18-5 70.0\nGlycerin\nAqua 7732-18-5 5.0\nTotal 100"))) /\
  dedup [py "Aqua"; py "Glycerin"; py "Aqua"] = [py "Aqua"; py "Glycerin"].
Proof.
  split; [vm_compute; reflexivity|]. split; [|vm_compute; reflexivity].
  apply (proj2 (proj1 (proj2 (proj2 (proj1 (table_names_deduplicated L1) _))) _)).
  vm_compute. auto.
Defined.

(** C5 on the scanned label, where the inline extractor answers, on the
    table sheet, where only the tabular extractor does, and on the blank
    scan, where neither does. *)
Lemma orchestrator_witness :
  (recovered_text scanned_label (py "label.pdf") = py "Ingredients: Aqua, Glycerin." /\
   extract_inline_ingredients L1 (py "Ingredients: Aqua, Glycerin.")
   = Some (py "Aqua, Glycerin") /\
   extract_ingredients_from_pdf L1 scanned_label (py "label.pdf") []
   = (Some (py "Aqua, Glycerin"),
      [] ++ recovery_calls scanned_label (py "label.pdf")
         ++ [InlineExtractor (recovered_text scanned_label (py "label.pdf"))])) /\
  (recovered_text table_sheet (py "table.pdf")
   = py "Lista de ingredientes\nAqua\nSodium Chloride\nParfum." /\
   extract_inline_ingredients L1 (recovered_text table_sheet (py "table.pdf")) = None /\
   extract_table_ingredients L1 (recovered_text table_sheet (py "table.pdf"))
   = Some (py "Aqua, Sodium Chloride, Parfum.") /\
   extract_ingredients_from_pdf L1 table_sheet (py "table.pdf") []
   = (extract_table_ingredients L1 (recovered_text table_sheet (py "table.pdf")),
      [] ++ recovery_calls table_sheet (py "table.pdf")
         ++ [InlineExtractor (recovered_text table_sheet (py "table.pdf"));
             TabularExtractor (recovered_text table_sheet (py "table.pdf"))])) /\
  (extract_inline_ingredients L1 (recovered_text blank_scan (py "blank.pdf")) = None /\
   extract_table_ingredients L1 (recovered_text blank_scan (py "blank.pdf")) = None /\
   extract_ingredients_from_pdf L1 blank_scan (py "blank.pdf") []
   = (extract_table_ingredients L1 (recovered_text blank_scan (py "blank.pdf")),
      [] ++ recovery_calls blank_scan (py "blank.pdf")
         ++ [InlineExtractor (recovered_text blank_scan (py "blank.pdf"));
             TabularExtractor (recovered_text blank_scan (py "blank.pdf"))])).
Proof.
  split; [|split].
  - destruct (orchestrator_inline_then_table L1 nat scanned_label (py "label.pdf") [])
      as (_ & _ & H).
    assert (E : extract_inline_ingredients L1 (recovered_text scanned_label (py "label.pdf"))
                = Some (py "Aqua, Glycerin")) by (vm_compute; reflexivity).
    rewrite E in H.
    split; [vm_compute; reflexivity|]. split; [vm_compute; reflexivity|exact H].
  - destruct (orchestrator_inline_then_table L1 nat table_sheet (py "table.pdf") [])
      as (_ & _ & H).
    assert (E : extract_inline_ingredients L1 (recovered_text table_sheet (py "table.pdf"))
                = None) by (vm_compute; reflexivity).
    rewrite E in H.
    split; [vm_compute; reflexivity|]. split; [exact E|].
    split; [vm_compute; reflexivity|exact H].
  - destruct (orchestrator_inline_then_table L1 nat blank_scan (py "blank.pdf") [])
      as (_ & _ & H).
    assert (E : extract_inline_ingredients L1 (recovered_text blank_scan (py "blank.pdf"))
                = None) by (vm_compute; reflexivity).
    rewrite E in H.
    split; [exact E|]. split; [vm_compute; reflexivity|exact H].
Defined.

(** C6 on the scanned label and on the formulation sheet. *)
Lemma ocr_fallback_witness :
  (length (native_text scanned_label (py "label.pdf")) < 40 /\
   (fst (extract_ingredients_from_pdf L1 scanned_label (py "label.pdf") [])
    = first_found L1 (ocr_text scanned_label (py "label.pdf")) /\
    exists heuristics,
      snd (extract_ingredients_from_pdf L1 scanned_label (py "label.pdf") [])
      = [] ++ [PdfReader (py "label.pdf")] ++ ocr_calls scanned_label (py "label.pdf")
           ++ InlineExtractor (ocr_text scanned_label (py "label.pdf")) :: heuristics /\
      Forall (fun c => c = TabularExtractor (ocr_text scanned_label (py "label.pdf")))
             heuristics) /\
   extract_ingredients_from_pdf L1 scanned_label (py "label.pdf") []
   = (Some (py "Aqua, Glycerin"),
      [PdfReader (py "label.pdf");
       ConvertFromPath (py "label.pdf") [(py "poppler_path", POPLER_PATH)];
       ImageToString 0;
       InlineExtractor (py "Ingredients: Aqua, Glycerin.")])) /\
  (40 <= length (native_text text_sheet (py "sheet.pdf")) /\
   (fst (extract_ingredients_from_pdf L1 text_sheet (py "sheet.pdf") [])
    = first_found L1 (native_text text_sheet (py "sheet.pdf")) /\
    exists heuristics,
      snd (extract_ingredients_from_pdf L1 text_sheet (py "sheet.pdf") [])
      = [] ++ [PdfReader (py "sheet.pdf")]
           ++ InlineExtractor (native_text text_sheet (py "sheet.pdf")) :: heuristics /\
      Forall (fun c => c = TabularExtractor (native_text text_sheet (py "sheet.pdf")))
             heuristics) /\
   extract_ingredients_from_pdf L1 text_sheet (py "sheet.pdf") []
   = (Some (py "Aqua, Sodium Chloride"),
      [PdfReader (py "sheet.pdf");
       InlineExtractor
         (py "Shampoo 250 ml\n\nIngredients: Aqua, Sodium Chloride.")])).
Proof.
  split.
  - assert (H : length (native_text scanned_label (py "label.pdf")) < 40)
      by (apply Nat.ltb_lt; vm_compute; reflexivity).
    split; [exact H|]. split; [|vm_compute; reflexivity].
    exact (proj1 (proj2 (ocr_fallback_below_threshold
                           L1 nat scanned_label (py "label.pdf") [])) H).
  - assert (H : 40 <= length (native_text text_sheet (py "sheet.pdf")))
      by (apply Nat.leb_le; vm_compute; reflexivity).
    split; [exact H|]. split; [|vm_compute; reflexivity].
    exact (proj2 (proj2 (ocr_fallback_below_threshold
                           L1 nat text_sheet (py "sheet.pdf") [])) H).
Defined.

(** C7, amended, on an inline statement, on a table and on the scanned
    label. *)
Lemma results_not_empty_witness :
  (extract_inline_ingredients L1 (py "Ingredients: Aqua, Glycerin.")
   = Some (py "Aqua, Glycerin") /\
   py "Aqua, Glycerin" <> [] /\
   clean_ingredients_string L1 (py "Aqua, Glycerin") = py "Aqua, Glycerin") /\
  (extract_table_ingredients L1 (py "INGREDIENTE INCI\nAqua\nGlycerin")
   = Some (py "Aqua, Glycerin") /\
   py "Aqua, Glycerin" <> [] /\
   exists names,
     names <> [] /\ Forall kept_name names /\
     py "Aqua, Glycerin" = join (py ", ") names) /\
  (fst (extract_ingredients_from_pdf L1 scanned_label (py "label.pdf") [])
   = Some (py "Aqua, Glycerin") /\
   py "Aqua, Glycerin" <> []).
Proof.
  pose proof (results_not_empty L1 nat scanned_label) as T.
  split; [|split].
  - assert (H : extract_inline_ingredients L1 (py "Ingredients: Aqua, Glycerin.")
                = Some (py "Aqua, Glycerin")) by (vm_compute; reflexivity).
    split; [exact H|].
    exact (proj1 (T (py "Ingredients: Aqua, Glycerin.") [] []) _ H).
  - assert (H : extract_table_ingredients L1 (py "INGREDIENTE INCI\nAqua\nGlycerin")
                = Some (py "Aqua, Glycerin")) by (vm_compute; reflexivity).
    split; [exact H|].
    exact (proj1 (proj2 (T (py "INGREDIENTE INCI\nAqua\nGlycerin") [] [])) _ H).
  - assert (H : fst (extract_ingredients_from_pdf L1 scanned_label (py "label.pdf") [])
                = Some (py "Aqua, Glycerin")) by (vm_compute; reflexivity).
    split; [exact H|].
    exact (proj2 (proj2 (T [] (py "label.pdf") [])) _ H).
Defined.

(** C7 as stated fails for the tabular extractor: the name of a row keeps
    its final period, which the normalizer would remove, and the
    orchestrator returns the string as it is. *)
Lemma table_result_not_normalized :
  extract_table_ingredients L1
    (py "Lista de ingredientes\nAqua\nSodium Chloride\nParfum.")
  = Some (py "Aqua, Sodium Chloride, Parfum.") /\
  clean_ingredients_string L1 (py "Aqua, Sodium Chloride, Parfum.")
  = py "Aqua, Sodium Chloride, Parfum" /\
  extract_ingredients_from_pdf L1 table_sheet (py "sheet.pdf") []
  = (Some (py "Aqua, Sodium Chloride, Parfum."),
     [PdfReader (py "sheet.pdf");
      InlineExtractor (py "Lista de ingredientes\nAqua\nSodium Chloride\nParfum.");
      TabularExtractor (py "Lista de ingredientes\nAqua\nSodium Chloride\nParfum.")]).
Proof. repeat split; vm_compute; reflexivity. Qed.

(** C8, amended, on a label followed directly by the ingredients, with a
    hyphen further on, on a label followed by a name and then a colon, and
    on a label followed by a hyphen. *)
Lemma inline_separator_witness :
  (forallb (fun i => negb (separated_label_at L1 (py "Ingredients Aqua, PEG-40 Stearate") i))
     (seq 0 (S (length (py "Ingredients Aqua, PEG-40 Stearate")))) = true /\
   existsb (fun c => (c =? chr "-")%N) (py "Ingredients Aqua, PEG-40 Stearate") = true /\
   extract_inline_ingredients L1 (py "Ingredients Aqua, PEG-40 Stearate") = None) /\
  (forallb (fun i => negb (separated_label_at L1 (py "Ingredients Aqua: Glycerin") i))
     (seq 0 (S (length (py "Ingredients Aqua: Glycerin")))) = true /\
   extract_inline_ingredients L1 (py "Ingredients Aqua: Glycerin") = None) /\
  (matches_at L1 ICASE_DOTALL (nth 0 patterns []) (py "Ingredients - Aqua") 0 = true /\
   separated_label_at L1 (py "Ingredients - Aqua") 0 = true /\
   extract_inline_ingredients L1 (py "Ingredients - Aqua") = Some (py "Aqua")).
Proof.
  split; [|split].
  - assert (H : forallb
                  (fun i => negb (separated_label_at L1
                                    (py "Ingredients Aqua, PEG-40 Stearate") i))
                  (seq 0 (S (length (py "Ingredients Aqua, PEG-40 Stearate")))) = true)
      by (vm_compute; reflexivity).
    split; [exact H|]. split; [vm_compute; reflexivity|].
    apply (proj2 (proj2 (inline_separator_follows_label L1))).
    intros i Hi. apply (below_by_forallb _ _ H). lia.
  - assert (H : forallb
                  (fun i => negb (separated_label_at L1 (py "Ingredients Aqua: Glycerin") i))
                  (seq 0 (S (length (py "Ingredients Aqua: Glycerin")))) = true)
      by (vm_compute; reflexivity).
    split; [exact H|].
    apply (proj2 (proj2 (inline_separator_follows_label L1))).
    intros i Hi. apply (below_by_forallb _ _ H). lia.
  - assert (H : matches_at L1 ICASE_DOTALL (nth 0 patterns []) (py "Ingredients - Aqua") 0
                = true) by (vm_compute; reflexivity).
    split; [exact H|]. split; [|vm_compute; reflexivity].
    apply (proj1 (proj2 (inline_separator_follows_label L1))
             (py "Ingredients - Aqua") 0 (nth 0 patterns [])); [|exact H].
    left. reflexivity.
Defined.

(** C8 as stated fails: a label without colon or hyphen is not matched. *)
Lemma inline_without_separator_absent :
  extract_inline_ingredients L1 (py "Ingredients Aqua, Glycerin") = None.
Proof. vm_compute. reflexivity. Qed.

(** C10 on a window that names a web site inside its only line. *)
Lemma markers_line_start_witness :
  ~ In NL (py "Aqua, visit www.example.com") /\
  cut_position L1 ICASE STOP_MARKERS (py "Aqua, visit www.example.com")
  = length (py "Aqua, visit www.example.com") /\
  cut_position L1 ICASE stop_pats (py "Aqua, visit www.example.com")
  = length (py "Aqua, visit www.example.com").
Proof.
  assert (H : ~ In NL (py "Aqua, visit www.example.com")).
  { intros H.
    apply (all_by_forallb (fun c => negb (c =? NL)%N) (fun c => c <> NL)) in H.
    - now apply H.
    - intros c Hc. apply negb_true_iff in Hc. now apply N.eqb_neq.
    - vm_compute. reflexivity. }
  split; [exact H|].
  exact (proj2 (proj2 (proj2 (proj2
           (markers_only_at_line_start L1 (py "Aqua, visit www.example.com"))))) H).
Defined.


(** ** The further properties on concrete inputs *)

(** X1 on a string with whitespace and punctuation around two names. *)
Lemma normalized_shape_witness :
  clean_ingredients_string L1 (py "  Aqua ;\n Glycerin. ") = py "Aqua ; Glycerin" /\
  boundary_char (chr "A") = false /\
  boundary_char (chr "n") = false.
Proof.
  pose proof (normalized_shape L1 (py "  Aqua ;\n Glycerin. ")) as (_ & _ & Hfirst & Hlast).
  split; [vm_compute; reflexivity|]. split.
  - apply (Hfirst (chr "A") (py "qua ; Glycerin")). vm_compute. reflexivity.
  - apply (Hlast (py "Aqua ; Glyceri") (chr "n")). vm_compute. reflexivity.
Defined.

(** X2 on a string of punctuation and whitespace. *)
Lemma normalized_empty_witness :
  forallb (fun c => Unicode.is_space c || mem_char (py ";,.") c) (py " ;,.\n") = true /\
  clean_ingredients_string L1 (py " ;,.\n") = [].
Proof.
  assert (H : forallb (fun c => Unicode.is_space c || mem_char (py ";,.") c)
                      (py " ;,.\n") = true) by (vm_compute; reflexivity).
  split; [exact H|].
  exact (proj2 (proj2 (normalized_empty_iff L1 (py " ;,.\n"))) H).
Defined.

(** X3 on a label whose list runs over two lines. *)
Lemma inline_substring_witness :
  extract_inline_ingredients L1 (py "Shampoo. Ingredients: Aqua,\n  Glycerin.\nMade in Spain")
  = Some (py "Aqua, Glycerin") /\
  exists w,
    infix w (py "Shampoo. Ingredients: Aqua,\n  Glycerin.\nMade in Spain") /\
    py "Aqua, Glycerin" = clean_ingredients_string L1 w /\
    length (py "Aqua, Glycerin")
    <= length (py "Shampoo. Ingredients: Aqua,\n  Glycerin.\nMade in Spain").
Proof.
  assert (H : extract_inline_ingredients L1
                (py "Shampoo. Ingredients: Aqua,\n  Glycerin.\nMade in Spain")
              = Some (py "Aqua, Glycerin")) by (vm_compute; reflexivity).
  split; [exact H|].
  exact (inline_result_from_substring L1 _ _ H).
Defined.

(** X4 on a text with separators and without a label. *)
Lemma inline_needs_label_witness :
  Re.search L1 ICASE (lits "ingredient") (py "Contains: Aqua - Glycerin") = None /\
  extract_inline_ingredients L1 (py "Contains: Aqua - Glycerin") = None.
Proof.
  assert (H : Re.search L1 ICASE (lits "ingredient") (py "Contains: Aqua - Glycerin")
              = None) by (vm_compute; reflexivity).
  split; [exact H|].
  exact (inline_needs_label L1 _ H).
Defined.

(** X5 on a numbered row with a CAS number. *)
Lemma row_name_from_line_witness :
  _extract_name_from_line L1 (py "  12. Sodium Chloride 7647-14-5 ")
  = Some (py "Sodium Chloride") /\
  infix (py "Sodium Chloride") (py "  12. Sodium Chloride 7647-14-5 ") /\
  strip (py "Sodium Chloride") = py "Sodium Chloride".
Proof.
  assert (H : _extract_name_from_line L1 (py "  12. Sodium Chloride 7647-14-5 ")
              = Some (py "Sodium Chloride")) by (vm_compute; reflexivity).
  split; [exact H|].
  exact (proj2 (row_name_from_line L1 _) _ H).
Defined.

(** X7 on a table of two numbered rows. *)
Lemma table_names_from_lines_witness :
  extract_table_ingredients L1
    (py "INGREDIENTE INCI\n1. Aqua 7732-18-5\n2. Glycerin 5,0\nTotal 100")
  = Some (py "Aqua, Glycerin") /\
  exists names,
    py "Aqua, Glycerin" = join (py ", ") names /\ NoDup names /\
    Forall (fun n =>
              infix n (py "INGREDIENTE INCI\n1. Aqua 7732-18-5\n2. Glycerin 5,0\nTotal 100") /\
              one_line n = true /\ 3 <= length n) names.
Proof.
  assert (H : extract_table_ingredients L1
                (py "INGREDIENTE INCI\n1. Aqua 7732-18-5\n2. Glycerin 5,0\nTotal 100")
              = Some (py "Aqua, Glycerin")) by (vm_compute; reflexivity).
  split; [exact H|].
  exact (table_names_from_lines L1 _ _ H).
Defined.

(** X8 on rows without a header. *)
Lemma table_needs_header_witness :
  forallb (fun h => negb (is_some (Re.search L1 ICASE h (py "Aqua\nGlycerin 5.0"))))
          headers = true /\
  extract_table_ingredients L1 (py "Aqua\nGlycerin 5.0") = None.
Proof.
  assert (H : forallb (fun h => negb (is_some (Re.search L1 ICASE h
                                                 (py "Aqua\nGlycerin 5.0"))))
                      headers = true) by (vm_compute; reflexivity).
  split; [exact H|].
  apply (table_needs_header L1).
  apply (all_by_forallb
           (fun h => negb (is_some (Re.search L1 ICASE h (py "Aqua\nGlycerin 5.0")))));
    [|exact H].
  intros h Hh. now destruct (Re.search L1 ICASE h (py "Aqua\nGlycerin 5.0")).
Defined.

(** X9 on a table that ends with a total. *)
Lemma table_block_cut_witness :
  Re.search L1 ICASE (lits "Lista de ingredientes")
    (py "Lista de ingredientes\nAqua\nTotal 100\nNotes")
  = Some {| m_start := 0; m_end := 21; m_span1 := (0, 0) |} /\
  cut_position L1 ICASE stop_pats (py "\nAqua\nTotal 100\nNotes") = 5 /\
  exists sp,
    In sp stop_pats /\
    matches_at L1 ICASE sp (py "\nAqua\nTotal 100\nNotes") 5 = true.
Proof.
  assert (H : Re.search L1 ICASE (lits "Lista de ingredientes")
                (py "Lista de ingredientes\nAqua\nTotal 100\nNotes")
              = Some {| m_start := 0; m_end := 21; m_span1 := (0, 0) |})
    by (vm_compute; reflexivity).
  split; [exact H|]. split; [vm_compute; reflexivity|].
  destruct (table_block_cut_at_earliest_marker L1 _ _ _ [] H)
    as (_ & _ & _ & Hat & _).
  apply Hat. apply Nat.ltb_lt. vm_compute. reflexivity.
Defined.

(** X11 on two different names. *)
Lemma dedup_distinct_witness :
  NoDup [py "Aqua"; py "Glycerin"] /\
  dedup [py "Aqua"; py "Glycerin"] = [py "Aqua"; py "Glycerin"].
Proof.
  assert (H : NoDup [py "Aqua"; py "Glycerin"]).
  { apply NoDup_cons.
    - intros [E|[]]. vm_compute in E. discriminate E.
    - apply NoDup_cons; [intros [] | constructor]. }
  split; [exact H|].
  exact (proj1 (dedup_keeps_distinct_names _) H).
Defined.

(** X12 on the scan of two empty pages. *)
Lemma blank_document_witness :
  forallb (fun p => blank (or_empty p)) (page_texts blank_scan (py "scan.pdf")) = true /\
  forallb (fun img => blank (image_to_string blank_scan img))
          (ocr_images blank_scan (py "scan.pdf")) = true /\
  extract_ingredients_from_pdf L1 blank_scan (py "scan.pdf") []
  = (None,
     [PdfReader (py "scan.pdf");
      ConvertFromPath (py "scan.pdf") [(py "poppler_path", POPLER_PATH)];
      ImageToString 0; ImageToString 1;
      InlineExtractor []; TabularExtractor []]).
Proof.
  assert (H1 : forallb (fun p => blank (or_empty p))
                       (page_texts blank_scan (py "scan.pdf")) = true)
    by (vm_compute; reflexivity).
  assert (H2 : forallb (fun img => blank (image_to_string blank_scan img))
                       (ocr_images blank_scan (py "scan.pdf")) = true)
    by (vm_compute; reflexivity).
  split; [exact H1|]. split; [exact H2|].
  rewrite forallb_forall in H1, H2.
  exact (proj2 (proj2 (proj2
           (blank_document_goes_to_ocr L1 nat blank_scan (py "scan.pdf") [] H1))) H2).
Defined.

(** X6 on a row with a [c.s.p.] and no digit. *)
Lemma row_without_digits_witness :
  forallb (fun c => negb (Unicode.is_decimal L1 c)) (py " Sodium Chloride c.s.p. ") = true /\
  blank (py " Sodium Chloride c.s.p. ") = false /\
  _extract_name_from_line L1 (py " Sodium Chloride c.s.p. ") = Some (py "Sodium Chloride").
Proof.
  assert (H : forallb (fun c => negb (Unicode.is_decimal L1 c))
                      (py " Sodium Chloride c.s.p. ") = true)
    by (vm_compute; reflexivity).
  split; [exact H|]. split; [vm_compute; reflexivity|].
  rewrite (row_without_digits L1 (py " Sodium Chloride c.s.p. ")).
  - vm_compute. reflexivity.
  - apply (all_by_forallb (fun c => negb (Unicode.is_decimal L1 c))); [|exact H].
    intros c Hc. now apply negb_true_iff.
  - vm_compute. reflexivity.
Defined.
